(* ===== verification/_CoqProject ===== *)
-Q . S2P
Prelude.v
CInt.v
Json.v
Types.v
Visitor.v
Reader.v
ReaderPath.v
MemberOrder.v
Writer.v
TestMain.v
RoundTrip.v
ReadWrite.v
