(* ===== verification/Prelude.v ===== *)
(** * A verification development for ooknn/reflect

    The repository is a header-only C++ library, [src/reflect.hpp]. It maps
    C++ structs to and from JSON documents. It comes with a test program,
    [src/main.cc]. A struct declares its fields once, with
    [REFLECT_STRUCT(type, (f1)(f2)...)]. That one declaration generates a
    template [reflect(Vis&, type&)]. With the visitor [JsonReader] it decodes a
    rapidjson document into the struct. With [JsonWriter] it emits the calls
    that print the struct as JSON.

    ** The program's parts and how they interact

    - Primitive bindings ([reflect.hpp] lines 69-95): one [reflect] overload
      per visitor and primitive C++ type ([bool], the nine integer types of
      the LP64 ABI, [double], [std::string], [JsonNull]).
    - Sequence traversal (lines 100-112): the template overloads for
      [std::vector<T>].
    - Member traversal (lines 114-134): [reflectMemberStart], [reflectMember]
      and [reflectMemberEnd].
    - Structure declaration (lines 159-169): the [REFLECT_STRUCT] macro.
    - The visitors: [JsonReader] (lines 21-33, 56-57, 136-157) keeps a pointer
      [m] to the current rapidjson node and a [path_] stack. [JsonWriter]
      (lines 35-52, 59-67) wraps a rapidjson writer.
    - The document collaborator, rapidjson. It is not in the repository. It
      is modelled from the spec (§6) as a JSON tree with rapidjson's type
      queries, and a builder that turns the writer's call sequence back into
      the tree the printed text parses to.

    Dispatch happens at compile time. The generic [reflect] picks the overload
    from the static type of the value. For a struct, the generated body calls
    [reflectMember] on each declared field. That call in turn calls [reflect]
    on the field.

    ** How the development is laid out (files in dependency order)

    - [Prelude] (this file): the exception and state monad [M] used to model
      both visitors ([let*], [;;] in [reflect_scope]); the lens combinator
      [zoom] that models a C++ reference to a sub-object ([v.name],
      [v.back()]); the refinement relation [refines] between a monadic
      operation and a pure state transformer, with its composition lemmas;
      the hint database [reflect].
    - [CInt]: the integer kinds of the LP64 ABI, their ranges and the C++
      integral conversion ([cast]) used by the reader's casts.
    - [Json]: the rapidjson collaborator. It gives the value tree [json]
      with [IsInt], [IsUint64], ... and [FindMember]. It gives the writer's
      call alphabet [event]. It gives [document_of_events], the document
      that the printed text of a call sequence parses to.
    - [Types]: the static C++ types that can be reflected ([ty]); the memory
      image of their values ([value]); value-initialisation
      ([value_init], as in [v.emplace_back()]); field and element access;
      the typing judgement [wt].
    - [Visitor]: the interface [Visitor] (a type class: the overload set
      that a visitor type provides) and the generic traversal [reflect].
      [reflect] models the template dispatch and the body [REFLECT_STRUCT]
      generates. Both visitors instantiate the same [reflect]. Also the
      interface [VisitorKeepsWt]: what a visitor's overloads promise so
      that the generic [reflect] keeps the object well typed whether it
      returns or throws, with its hint database [keeps_wt].
    - [Reader]: [JsonReader], its [iterArray] and [member], the reader's
      primitive overloads, the instance. Also [decode], a pure
      specification of what reading does, and the refinement theorem
      between them, with the reader's properties: type preservation,
      integer reads, vectors appended to, undeclared members ignored and
      left untouched, the exception messages. [JsonReader_ctor] is the
      constructor [JsonReader(Value* m)]; the instance of [VisitorKeepsWt]
      discharges the interface for the reader's overloads.
    - [ReaderPath]: [path_frame], the statement that an operation's
      behaviour does not depend on the initial path, and [frame_at], which
      adds that after a throw the segments pushed are a [route] from the
      document to the final node and that this node [rejects] the test
      whose message was thrown; their proof for every [reflect t] at the
      reader instance.
    - [MemberOrder]: [jequiv], documents equal up to the order of object
      members, and the theorem that reading cannot tell them apart.
    - [Writer]: [JsonWriter], its constructor [JsonWriter_ctor], its
      overloads, the instance, its [VisitorKeepsWt] instance, the pure
      [encode] and the refinement theorem.
    - [TestMain]: the structs of [main.cc] ([Params], [Entity], [Items]),
      its two tests and [main] as executable definitions.
    - [RoundTrip]: the writer's output parses to [to_json t v], and
      reading that document back into any target [v0] gives
      [merge t v0 v], which is [v] when the vectors of [v0] are empty.
      A string with an embedded NUL byte does not survive the trip.
    - [ReadWrite]: the converse. A document that [conforms] to the type is
      read and written back to the same document.

    ** What the theorems show (claim ids C1-C23 in the doc comments)

    - Round trips: for a well-formed struct type and a well-typed value
      without NUL bytes in its strings and without NaN or infinite
      doubles, writing the value and reading the document back into any
      well-typed target whose vectors are empty restores the value and
      leaves the reader as it was (C1, [RoundTrip]). Read into any
      well-typed target, the same document leaves [RoundTrip.merge t v0
      v]: primitives overwritten, vectors appended to (C23). A
      conforming document read and written back prints the same
      document (C13, [ReadWrite]). The parser's fuel is enough for every
      writer output (C7).
    - Refinement: the stateful reader and writer implement the pure
      [decode] and [encode] exactly (C2, C3). On success the reader
      restores its node pointer and its path. The writer never throws
      and never changes the value. The properties stated on [decode] and
      [encode] carry over to [reflect] through these two.
    - Invariants: the path never influences the result (C8). Members not
      declared in [REFLECT_STRUCT] are neither read nor changed (C10,
      C11), nor written (C14). Each declared member is read once, from
      its own value (C15). The basic exception guarantee: whether
      reading returns or throws, the object stays well typed (C17),
      proved against the [VisitorKeepsWt] interface.
    - Progress: a read of an array that returns has read every entry in
      order and appended one element per entry (C18).
    - Idempotence: for a type without vectors, reading a document again
      into the object a read of it produced changes nothing (C19).
    - Equivalence: member order is irrelevant when names are unique (C9).
    - Error behaviour: every exception names a type only, never the path
      (C12). A node of the wrong shape is rejected before any lookup,
      with no effect (C16). After a throw, the stale [path_] is a route
      from the document to the node [m] is left at, and that node failed
      the thrown test; the segment "0" does not say which element (C20).
      The first failing member in declaration order decides the
      exception, and only its field holds a partial value (C21).
    - Bounds: out-of-range numbers are truncated modulo the width, or
      rejected, exactly as the casts and the [Is*] checks of lines 70-78
      decide (C5). A double field rejects integer literals (C6). Every
      [Int], [Int64] and [Uint64] call of the writer receives a value of
      its parameter type, so no implicit conversion changes a value
      (C22). Embedded NUL bytes are lost on reading (C4).
    - The test program of [main.cc] is modelled as executable
      definitions; its structs and documents serve as the concrete inputs
      of the witnesses.

    ** Bounds and fuel

    Every traversal is structural recursion on the static type [ty], so
    it always terminates. The only fuel is in [Json.document_of_events],
    the model of rapidjson's parser. It is given [S (length evs)], which
    suffices because every step consumes at least one call. [encode_parses]
    proves that this fuel is enough on every writer output (C13).

    ** What is not modelled

    rapidjson's text printer and parser are not modelled character by
    character: number formatting, escaping and UTF-8 validation belong to
    the library. The spec (§1) places the parser and printer out of
    scope and specifies only the interface the core calls, which is what
    [Json] models; nothing more of rapidjson is in the repository. The
    text is abstracted by [document_of_events]. That model assumes a
    double printed by the writer parses back to the same double, which
    rapidjson's default [Parse] (without [kParseFullPrecisionFlag]) does
    not guarantee; the round trips C1, C13 and C23 rest on it for
    doubles. A node [JInt z] carries any integer, while rapidjson makes
    integer nodes only in [-2^63, 2^64); the reader's tests are range
    tests, so the difference never shows for nodes rapidjson builds.

    The model is more permissive than the C++ compiler in two places,
    and the theorems exclude both where it matters: a [REFLECT_STRUCT]
    list may name a non-member (a compile error in C++; [REFLECT_MEMBER]
    then does nothing, and [wf_ty] rules it out), and [TVec (TPrim
    PBool)] is a type although [std::vector<bool>::back()] cannot bind
    to [bool&]. [Entity two;] in [test_reflect] is default-initialised,
    so its [id] is indeterminate; it is modelled as value-initialised,
    which the run never observes because the read overwrites [id].
    The C-string overload of [JsonWriter::string], [null_], [int64] and
    [JsonReader::isNull] are modelled, but no [reflect] overload calls
    them. [JsonReader::getPath] is declared and never defined. The empty
    [JsonReader::startObject]/[endObject] are never called. An [assert]
    of the test program is modelled as [TestMain.check]. *)

From stdpp Require Import base list strings sets.
From Stdlib Require Import ZArith Lia.

(** ** Exceptions *)

(** The only exception [reflect.hpp] throws: [std::invalid_argument(what)],
    where [what] names the expected kind ("bool", "int", "array", ...). *)
Inductive exn := InvalidArgument (what : string).

(** The outcome of a computation that may throw. *)
Inductive outcome (A : Type) := Ok (a : A) | Throw (e : exn).
Arguments Ok {A} a.
Arguments Throw {A} e.

(** ** A state monad with exceptions

    [M S A] runs on a state [S] and returns the outcome together with the
    final state. When an exception is thrown, the state at the throw point
    is kept. This is C++ semantics: nothing is rolled back, and the code
    that would have restored a saved pointer after the call never runs. *)
Definition M (S A : Type) : Type := S -> outcome A * S.

Definition ret {S A} (a : A) : M S A := fun s => (Ok a, s).

Definition bind {S A B} (m : M S A) (k : A -> M S B) : M S B :=
  fun s => match m s with
           | (Ok a, s') => k a s'
           | (Throw e, s') => (Throw e, s')
           end.

Definition throw {S A} (e : exn) : M S A := fun s => (Throw e, s).
Definition get {S} : M S S := fun s => (Ok s, s).
Definition gets {S A} (f : S -> A) : M S A := fun s => (Ok (f s), s).
Definition put {S} (s : S) : M S unit := fun _ => (Ok tt, s).
Definition modify {S} (f : S -> S) : M S unit := fun s => (Ok tt, f s).

Declare Scope reflect_scope.
Delimit Scope reflect_scope with reflect.
Notation "'let*' x ':=' m 'in' k" := (bind m (fun x => k))
  (at level 10, x name, m at level 100, k at level 200) : reflect_scope.
Notation "'let*' ' p ':=' m 'in' k" :=
  (bind m (fun x => match x with p => k end))
  (at level 10, p pattern, m at level 100, k at level 200) : reflect_scope.
Notation "m ;; k" := (bind m (fun _ => k))
  (at level 100, k at level 200, right associativity) : reflect_scope.
Open Scope reflect_scope.

(** A range-for loop over a list whose body may throw. *)
Fixpoint for_each {S A} (f : A -> M S unit) (l : list A) : M S unit :=
  match l with
  | [] => ret tt
  | a :: l' => f a ;; for_each f l'
  end.

(** The pure counterpart of [for_each]: a left fold that stops at the
    first exception. *)
Fixpoint foldM {A B} (g : A -> B -> outcome B) (l : list A) (b : B) : outcome B :=
  match l with
  | [] => Ok b
  | a :: l' => match g a b with Ok b' => foldM g l' b' | Throw e => Throw e end
  end.

(** The state of a visitor call is the visitor object together with the
    value the current [reflect] call holds a reference to. [zoom get set k]
    runs [k] with the reference narrowed to a sub-object. It writes the
    sub-object back whatever the outcome, because the C++ code mutates it in
    place. *)
Definition zoom {V T A} (getf : T -> T) (setf : T -> T -> T)
    (k : M (V * T) A) : M (V * T) A :=
  fun '(w, x) => let '(r, (w', x')) := k (w, getf x) in (r, (w', setf x x')).

(** Operations on the visitor object only. *)
Definition on_vis {V T A} (k : M V A) : M (V * T) A :=
  fun '(w, x) => let '(r, w') := k w in (r, (w', x)).

(** ** Refinement of a monadic operation by a pure state transformer

    [refines m f]: on every state, [m] succeeds with the state [f] computes
    when [f] succeeds, and [m] throws the same exception when [f] throws.
    The state after a throw is left open. *)
Definition refines {S} (m : M S unit) (f : S -> outcome S) : Prop :=
  forall s, match f s with
            | Ok s' => m s = (Ok tt, s')
            | Throw e => exists s', m s = (Throw e, s')
            end.

Definition seq_spec {S} (f g : S -> outcome S) : S -> outcome S :=
  fun s => match f s with Ok s' => g s' | Throw e => Throw e end.

Fixpoint fold_spec {S A} (g : A -> S -> outcome S) (l : list A) : S -> outcome S :=
  match l with
  | [] => Ok
  | a :: l' => seq_spec (g a) (fold_spec g l')
  end.

Definition zoom_spec {V T} (getf : T -> T) (setf : T -> T -> T)
    (f : V * T -> outcome (V * T)) : V * T -> outcome (V * T) :=
  fun '(w, x) => match f (w, getf x) with
                 | Ok (w', x') => Ok (w', setf x x')
                 | Throw e => Throw e
                 end.

Create HintDb reflect.
Create Rewrite HintDb reflect_rw.

Ltac mrun := cbv [bind ret throw get gets put modify on_vis zoom] in *; simpl in *.

Section Refinement.
Context {S : Type}.

Lemma refines_ret : refines (S:=S) (ret tt) Ok.
Proof. intros s. reflexivity. Qed.

Lemma refines_seq (m1 m2 : M S unit) f1 f2 :
  refines m1 f1 -> refines m2 f2 -> refines (m1 ;; m2) (seq_spec f1 f2).
Proof.
  intros H1 H2 s. unfold seq_spec, bind. specialize (H1 s).
  destruct (f1 s) as [s1|e].
  - rewrite H1. apply H2.
  - destruct H1 as [s' ->]. eauto.
Qed.

Lemma refines_for_each {A} (f : A -> M S unit) g (l : list A) :
  (forall a, a ∈ l -> refines (f a) (g a)) ->
  refines (for_each f l) (fold_spec g l).
Proof.
  induction l as [|a l IH]; intros Hf; simpl.
  - apply refines_ret.
  - apply refines_seq; [apply Hf; set_solver|].
    apply IH. intros b Hb. apply Hf. set_solver.
Qed.

(** Equal specifications refine the same operations. *)
Lemma refines_ext (m : M S unit) f g :
  (forall s, f s = g s) -> refines m f -> refines m g.
Proof. intros Hfg H s. rewrite <- Hfg. apply H. Qed.

(** A run of a refined operation: it returns normally exactly when the
    specification succeeds, in the state it computes, and otherwise
    throws the specification's exception. *)
Lemma refines_run (m : M S unit) f s o s' :
  refines m f -> m s = (o, s') ->
  match f s with Ok s'' => o = Ok tt /\ s' = s'' | Throw e => o = Throw e end.
Proof.
  intros H E. specialize (H s). destruct (f s) as [s''|e].
  - rewrite E in H. by injection H as -> ->.
  - destruct H as [s'' H]. rewrite E in H. by injection H as -> _.
Qed.

(** A loop that throws ran a prefix of the list normally and then threw
    at the next element; the later elements were never visited. *)
Lemma for_each_throw {A} (f : A -> M S unit) l s e s' :
  for_each f l s = (Throw e, s') ->
  exists l1 a l2 s1, l = l1 ++ a :: l2 /\ for_each f l1 s = (Ok tt, s1) /\ f a s1 = (Throw e, s').
Proof.
  revert s. induction l as [|a l IH]; intros s; simpl; [discriminate|].
  unfold bind. destruct (f a s) as [[[]|e'] s1] eqn:Ha.
  - intros H. destruct (IH s1 H) as (l1 & b & l2 & s2 & -> & H1 & H2).
    exists (a :: l1), b, l2, s2. simpl. unfold bind. by rewrite Ha.
  - intros [= -> ->]. by exists [], a, l, s.
Qed.
End Refinement.

Lemma refines_zoom {V T} (getf : T -> T) setf (k : M (V * T) unit) f :
  refines k f -> refines (zoom getf setf k) (zoom_spec getf setf f).
Proof.
  intros H [w x]. unfold zoom, zoom_spec. specialize (H (w, getf x)).
  destruct (f (w, getf x)) as [[w' x']|e].
  - rewrite H. reflexivity.
  - destruct H as [[w' x'] ->]. eauto.
Qed.

#[export] Hint Resolve refines_ret refines_seq refines_zoom : reflect.

(** An invariant kept by every step of a fold holds at its end. *)
Lemma foldM_invariant {A B} (P : B -> Prop) (g : A -> B -> outcome B) l b b' :
  (forall a x x', a ∈ l -> P x -> g a x = Ok x' -> P x') ->
  P b -> foldM g l b = Ok b' -> P b'.
Proof.
  revert b. induction l as [|a l IH]; simpl; intros b Hg Hb Hf.
  - by injection Hf as <-.
  - destruct (g a b) as [x|e] eqn:Ha; [|discriminate].
    apply (IH x); [|eapply Hg; eauto; set_solver|done].
    intros; eapply Hg; eauto. set_solver.
Qed.

Lemma foldM_app {A B} (g : A -> B -> outcome B) l1 l2 b :
  foldM g (l1 ++ l2) b =
  match foldM g l1 b with Ok b' => foldM g l2 b' | Throw e => Throw e end.
Proof.
  revert b. induction l1 as [|a l1 IH]; intros b; simpl; [done|].
  destruct (g a b); [apply IH|done].
Qed.

(** Folds of pointwise related steps over related lists agree. *)
Lemma foldM_Forall2 {A A' B} (R : A -> A' -> Prop) (g : A -> B -> outcome B)
    (h : A' -> B -> outcome B) l1 l2 b :
  (forall a a' x, R a a' -> g a x = h a' x) -> Forall2 R l1 l2 -> foldM g l1 b = foldM h l2 b.
Proof.
  intros Hgh Hl. revert b. induction Hl as [|a a' l1 l2 Ha Hl IH]; intros b; simpl; [done|].
  rewrite (Hgh _ _ _ Ha). destruct (h a' b); [apply IH|done].
Qed.

Lemma foldM_ext {A B} (g h : A -> B -> outcome B) l b :
  (forall a x, a ∈ l -> g a x = h a x) -> foldM g l b = foldM h l b.
Proof.
  revert b. induction l as [|a l IH]; intros b Hgh; simpl; [done|].
  rewrite (Hgh a b) by set_solver. destruct (h a b); [|done].
  apply IH. intros; apply Hgh; set_solver.
Qed.

(** A fold whose every step leaves [b] as it is returns [b]. *)
Lemma foldM_fixpoint {A B} (g : A -> B -> outcome B) l b :
  (forall a, a ∈ l -> g a b = Ok b) -> foldM g l b = Ok b.
Proof.
  induction l as [|a l IH]; intros Hg; simpl; [done|].
  rewrite Hg by set_solver. apply IH. intros; apply Hg; set_solver.
Qed.

(** A fold that throws threw at one of its steps. *)
Lemma foldM_throw {A B} (g : A -> B -> outcome B) l b e :
  foldM g l b = Throw e -> exists a x, a ∈ l /\ g a x = Throw e.
Proof.
  revert b. induction l as [|a l IH]; intros b; simpl; [discriminate|].
  destruct (g a b) as [x|e'] eqn:Ha.
  - intros H. destruct (IH _ H) as (a' & x' & ? & ?). exists a', x'. split; [set_solver|done].
  - intros [= ->]. exists a, b. split; [set_solver|done].
Qed.

(** ** Generic facts on lists and strings *)

(** Choice over a list: a witness for every element gives a list of
    witnesses. *)
Lemma Forall_Forall2_choice {A B} (P : A -> B -> Prop) l :
  Forall (fun a => exists b, P a b) l -> exists l', Forall2 P l l'.
Proof.
  induction 1 as [|a l [b Hb] _ [l' IH]]; [by exists []|]. exists (b :: l'). by constructor.
Qed.

Lemma Forall2_Forall_snd {A B} (P : A -> B -> Prop) (Q : B -> Prop) l1 l2 :
  (forall a b, P a b -> Q b) -> Forall2 P l1 l2 -> Forall Q l2.
Proof. intros H. induction 1; constructor; eauto. Qed.

Lemma Forall2_map_r {A B} (f : B -> A) l1 l2 :
  Forall2 (fun a b => f b = a) l1 l2 -> map f l2 = l1.
Proof. induction 1; simpl; congruence. Qed.

(** [path_.push_back(x)] followed by [path_.pop_back()] restores the
    stack. *)
(** A property of every piece holds of the concatenation. *)
Lemma Forall_concat_map {A B} (P : B -> Prop) (f : A -> list B) l :
  (forall x, x ∈ l -> Forall P (f x)) -> Forall P (concat (map f l)).
Proof.
  induction l as [|x l IH]; intros Hf; simpl; [constructor|].
  apply Forall_app; split; [apply Hf; set_solver|apply IH; intros; apply Hf; set_solver].
Qed.

Lemma removelast_snoc {A} (l : list A) (x : A) : removelast (l ++ [x]) = l.
Proof. apply removelast_last. Qed.

#[export] Hint Rewrite @removelast_snoc : reflect_rw.
