(* ===== verification/CInt.v ===== *)
(** * C++ integer types of the LP64 ABI

    The nine integer types that [reflect.hpp] overloads [reflect] for
    (lines 70-78 and 83-91). This file gives their widths, ranges and the
    integral conversion [(T)x]. Since C++20, converting an integer to a
    narrower type keeps the value modulo [2^bits]. For a signed type this
    is the two's-complement reading, which is also what GCC has always
    done. The reader's casts [(uint8_t)], [(short)], [(unsigned short)],
    [(unsigned)] and [(long)] are [cast] at the target kind. *)

From stdpp Require Import base decidable.
From Stdlib Require Import ZArith Lia.
From S2P Require Import Prelude.

Local Open Scope Z_scope.

(** The integer parameter types of the [reflect] overloads. [uint8_t] is
    [unsigned char], and [uint64_t] and [int64_t] are [unsigned long] and
    [long] on LP64. *)
Inductive ity :=
  | UChar | Short | UShort | Int | UInt | Long | ULong | LongLong | ULongLong.

#[export] Instance ity_eq_dec : EqDecision ity.
Proof. solve_decision. Defined.

Definition bits (k : ity) : Z :=
  match k with
  | UChar => 8
  | Short | UShort => 16
  | Int | UInt => 32
  | Long | ULong | LongLong | ULongLong => 64
  end.

Definition is_signed (k : ity) : bool :=
  match k with
  | Short | Int | Long | LongLong => true
  | UChar | UShort | UInt | ULong | ULongLong => false
  end.

Definition min_of (k : ity) : Z := if is_signed k then - 2 ^ (bits k - 1) else 0.
Definition max_of (k : ity) : Z :=
  if is_signed k then 2 ^ (bits k - 1) - 1 else 2 ^ bits k - 1.

(** [z] is a value of type [k]. *)
Definition in_range (k : ity) (z : Z) : bool := (min_of k <=? z) && (z <=? max_of k).

Definition wrap_unsigned (w z : Z) : Z := z mod 2 ^ w.
Definition wrap_signed (w z : Z) : Z := (z + 2 ^ (w - 1)) mod 2 ^ w - 2 ^ (w - 1).

(** The integral conversion [(k) z]. *)
Definition cast (k : ity) (z : Z) : Z :=
  if is_signed k then wrap_signed (bits k) z else wrap_unsigned (bits k) z.

(** ** Lemmas *)

Lemma in_range_iff k z : in_range k z = true <-> min_of k <= z <= max_of k.
Proof. unfold in_range. rewrite andb_true_iff, !Z.leb_le. tauto. Qed.

(** Range facts at concrete kinds, by unfolding the bounds. *)
Ltac range_lia := rewrite ?in_range_iff in *; unfold min_of, max_of in *; simpl in *; lia.

Lemma bits_pos k : 0 < bits k - 1.
Proof. destruct k; simpl; lia. Qed.

Lemma pow_bits k : 2 ^ bits k = 2 * 2 ^ (bits k - 1).
Proof.
  rewrite <- Z.pow_succ_r by (pose proof (bits_pos k); lia).
  f_equal. lia.
Qed.

(** A conversion always produces a value of the target type. *)
Lemma cast_in_range k z : in_range k (cast k z) = true.
Proof.
  apply in_range_iff. unfold cast, min_of, max_of.
  pose proof (pow_bits k). pose proof (Z.pow_pos_nonneg 2 (bits k - 1)).
  pose proof (bits_pos k).
  destruct (is_signed k); unfold wrap_signed, wrap_unsigned.
  - pose proof (Z.mod_pos_bound (z + 2 ^ (bits k - 1)) (2 ^ bits k)). lia.
  - pose proof (Z.mod_pos_bound z (2 ^ bits k)). lia.
Qed.

(** A conversion does not change a value that already fits. *)
Lemma cast_id k z : in_range k z = true -> cast k z = z.
Proof.
  rewrite in_range_iff. unfold cast, min_of, max_of.
  pose proof (pow_bits k). pose proof (Z.pow_pos_nonneg 2 (bits k - 1)).
  pose proof (bits_pos k).
  destruct (is_signed k); unfold wrap_signed, wrap_unsigned; intros Hr.
  - rewrite Z.mod_small by lia. lia.
  - apply Z.mod_small. lia.
Qed.

#[export] Hint Resolve cast_in_range cast_id : reflect.

