(* ===== verification/Json.v ===== *)
(** * The rapidjson collaborator

    rapidjson is not part of the repository. Following the spec (§6), it is
    modelled through the interface [reflect.hpp] uses:
    - a document node [json] with the type queries [IsBool], [IsInt],
      [IsUint64], ... and the getters of [rapidjson::GenericValue];
    - [FindMember], the lookup of an object member by name;
    - [event], the calls [JsonWriter] makes on [rapidjson::Writer]
      ([Bool], [Int], [Int64], [Uint64], [Double], [String], [Key],
      [StartObject], ...);
    - [document_of_events], the document that the text printed by such a
      call sequence parses back to with [Document::Parse].

    A rapidjson number node carries flags. They say whether its value fits
    [int], [unsigned], [int64_t] and [uint64_t], and whether it was written
    as a double. The flags are computed from the value when the node is
    built. So an integer node is its value [JInt z], and [IsInt] and the
    other predicates are range tests on [z]. *)

From stdpp Require Import base list strings.
From Stdlib Require Import ZArith Lia Floats.
From S2P Require Import Prelude CInt.

Local Set Warnings "-register-all".

(** ** Document nodes *)

Inductive json :=
  | JNull
  | JBool (b : bool)
  | JInt (z : Z)
  | JDouble (d : float)
  | JString (s : string)
  | JArray (elems : list json)
  | JObject (members : list (string * json)).

Definition IsNull (j : json) : bool := if j is JNull then true else false.
Definition IsBool (j : json) : bool := if j is JBool _ then true else false.
Definition IsDouble (j : json) : bool := if j is JDouble _ then true else false.
Definition IsString (j : json) : bool := if j is JString _ then true else false.
Definition IsArray (j : json) : bool := if j is JArray _ then true else false.
Definition IsObject (j : json) : bool := if j is JObject _ then true else false.

(** [IsInt]: the number fits [int]; [IsInt64]: it fits [int64_t];
    [IsUint64]: it fits [uint64_t]. *)
Definition IsInt (j : json) : bool := if j is JInt z then in_range Int z else false.
Definition IsInt64 (j : json) : bool := if j is JInt z then in_range LongLong z else false.
Definition IsUint64 (j : json) : bool := if j is JInt z then in_range ULongLong z else false.

(** The getters. [reflect.hpp] calls each one only after the matching
    [Is*] test has succeeded. *)
Definition GetBool (j : json) : bool := if j is JBool b then b else false.
Definition GetInt (j : json) : Z := if j is JInt z then z else 0%Z.
Definition GetInt64 (j : json) : Z := if j is JInt z then z else 0%Z.
Definition GetUint64 (j : json) : Z := if j is JInt z then z else 0%Z.
Definition GetDouble (j : json) : float := if j is JDouble d then d else 0%float.
Definition GetString (j : json) : string := if j is JString s then s else "".
Definition GetArray (j : json) : list json := if j is JArray l then l else [].

(** [GenericValue::FindMember]: a linear scan from the first member. The
    first member with the name wins. *)
Fixpoint find_in (name : string) (ms : list (string * json)) : option json :=
  match ms with
  | [] => None
  | (k, v) :: ms' => if decide (k = name) then Some v else find_in name ms'
  end.

Definition FindMember (name : string) (j : json) : option json :=
  if j is JObject ms then find_in name ms else None.

(** ** The writer's calls *)

Inductive event :=
  | EvNull
  | EvBool (b : bool)
  | EvInt (z : Z)
  | EvInt64 (z : Z)
  | EvUint64 (z : Z)
  | EvDouble (d : float)
  | EvString (s : string)
  | EvKey (k : string)
  | EvStartObject
  | EvEndObject
  | EvStartArray
  | EvEndArray.

(** Decidable equality of the calls, comparing doubles bit for bit. *)
#[export] Instance spec_float_eq_dec : EqDecision SpecFloat.spec_float.
Proof. solve_decision. Defined.
#[export] Instance float_eq_dec : EqDecision float.
Proof.
  intros x y. destruct (decide (Prim2SF x = Prim2SF y)) as [H|H].
  - left. by apply Prim2SF_inj.
  - right. by intros ->.
Defined.
#[export] Instance event_eq_dec : EqDecision event.
Proof. solve_decision. Defined.

(** ** The document a call sequence prints

    A recursive-descent reading of the call sequence, as
    [Document::Parse] reads the printed text. An integer printed by
    [Int], [Int64] or [Uint64] parses back to an integer node. A double
    parses back to a double node. [Writer::Double] refuses NaN and the
    infinities: it prints nothing, so the text is not a document. Every
    call consumes at least one event, so [S (length evs)] steps of fuel
    suffice. *)
Fixpoint parse_value (fuel : nat) (evs : list event) : option (json * list event) :=
  match fuel with
  | O => None
  | S f =>
      match evs with
      | EvNull :: r => Some (JNull, r)
      | EvBool b :: r => Some (JBool b, r)
      | EvInt z :: r | EvInt64 z :: r | EvUint64 z :: r => Some (JInt z, r)
      | EvDouble d :: r => if PrimFloat.is_finite d then Some (JDouble d, r) else None
      | EvString s :: r => Some (JString s, r)
      | EvStartArray :: r => parse_elems f r []
      | EvStartObject :: r => parse_members f r []
      | _ => None
      end
  end
with parse_elems (fuel : nat) (evs : list event) (acc : list json)
    : option (json * list event) :=
  match fuel with
  | O => None
  | S f =>
      match evs with
      | EvEndArray :: r => Some (JArray (rev acc), r)
      | _ => match parse_value f evs with
             | Some (j, r) => parse_elems f r (j :: acc)
             | None => None
             end
      end
  end
with parse_members (fuel : nat) (evs : list event) (acc : list (string * json))
    : option (json * list event) :=
  match fuel with
  | O => None
  | S f =>
      match evs with
      | EvEndObject :: r => Some (JObject (rev acc), r)
      | EvKey k :: r => match parse_value f r with
                        | Some (j, r') => parse_members f r' ((k, j) :: acc)
                        | None => None
                        end
      | _ => None
      end
  end.

Definition document_of_events (evs : list event) : option json :=
  match parse_value (S (length evs)) evs with
  | Some (j, []) => Some j
  | _ => None
  end.

(** ** Lemmas *)

Lemma FindMember_object name ms : FindMember name (JObject ms) = find_in name ms.
Proof. reflexivity. Qed.

Lemma find_in_app_l name ms1 ms2 v :
  find_in name ms1 = Some v -> find_in name (ms1 ++ ms2) = Some v.
Proof.
  induction ms1 as [|[k w] ms1 IH]; simpl; [discriminate|].
  case_decide; auto.
Qed.

Lemma find_in_app_r name ms1 ms2 :
  find_in name ms1 = None -> find_in name (ms1 ++ ms2) = find_in name ms2.
Proof.
  induction ms1 as [|[k w] ms1 IH]; simpl; [auto|].
  case_decide; [discriminate|auto].
Qed.

(** A name that no key of the list equals is not found. *)
Lemma find_in_None name ms :
  name ∉ (fst <$> ms) -> find_in name ms = None.
Proof.
  induction ms as [|[k w] ms IH]; simpl; intros Hn; [done|].
  rewrite elem_of_cons in Hn.
  case_decide; [subst; tauto|]. apply IH. tauto.
Qed.

(** When member names are unique, the lookup does not depend on the
    order of the members. *)
Lemma find_in_perm name ms ms' :
  NoDup (map fst ms) -> ms ≡ₚ ms' -> find_in name ms = find_in name ms'.
Proof.
  intros Hnd Hp. induction Hp as [|[k x] l l' Hp IH|[k1 x1] [k2 x2] l|l l' l'' H1 IH1 H2 IH2];
    simpl in *.
  - done.
  - inversion Hnd; subst. case_decide; [done|]. by apply IH.
  - inversion Hnd as [|? ? Hn _]; subst. rewrite elem_of_cons in Hn.
    repeat case_decide; subst; naive_solver.
  - rewrite IH1 by done. apply IH2.
    by rewrite <- (Permutation_map fst H1).
Qed.

(** Only the members with the name matter to the lookup. *)
Lemma find_in_filter name (P : string * json -> Prop) `{!forall kv, Decision (P kv)} ms :
  (forall x, P (name, x)) -> find_in name (filter P ms) = find_in name ms.
Proof.
  intros Hn. induction ms as [|[k x] ms IH]; [done|].
  rewrite filter_cons. case_decide as Hk; simpl.
  - case_decide; [done|apply IH].
  - case_decide; [subst; by destruct Hk|apply IH].
Qed.

Lemma find_in_Some name ms c : find_in name ms = Some c -> (name, c) ∈ ms.
Proof.
  induction ms as [|[k x] ms IH]; simpl; [discriminate|].
  case_decide; [intros [= ->]; subst; left|intros; right; auto].
Qed.

Lemma find_in_is_Some name ms : name ∈ map fst ms -> exists c, find_in name ms = Some c.
Proof.
  induction ms as [|[k x] ms IH]; simpl; intros Hn; [by apply elem_of_nil in Hn|].
  case_decide; [eauto|]. apply IH. apply elem_of_cons in Hn as [->|]; [done|done].
Qed.

Lemma find_in_elem name ms c :
  NoDup (map fst ms) -> (name, c) ∈ ms -> find_in name ms = Some c.
Proof.
  induction ms as [|[k x] ms IH]; simpl; intros Hnd Hin; [by apply elem_of_nil in Hin|].
  inversion Hnd as [|? ? Hk Hnd']; subst. apply elem_of_cons in Hin as [[= -> ->]|Hin].
  - by case_decide.
  - case_decide; [|by apply IH]. subst. exfalso. apply Hk.
    apply list_elem_of_fmap. by exists (name, c).
Qed.

(** In an object whose keys are [ks], with the value [F k] at key [k],
    the member found for a key of [ks] is its value. *)
Lemma find_in_keys name (ks : list string) (F : string -> json) :
  name ∈ ks -> find_in name (map (fun k => (k, F k)) ks) = Some (F name).
Proof.
  induction ks as [|k ks IH]; simpl; intros Hn; [by apply elem_of_nil in Hn|].
  case_decide; [by subst|]. apply IH. apply elem_of_cons in Hn as [->|]; done.
Qed.

#[export] Hint Rewrite FindMember_object : reflect_rw.
