(* ===== verification/Types.v ===== *)
(** * Reflected C++ types and their values

    [ty] is the set of static types for which [reflect] has an overload.
    The set is generated as follows: the primitives of lines 69-95, and
    [std::vector<T>] (lines 100-112) of such a type. A struct declared with
    [REFLECT_STRUCT] (lines 163-169) is [TStruct fields decl]: [fields]
    are its data members in declaration order, and [decl] is the list of
    names given to the macro.

    [value] is the memory image of an object: an integer is its
    mathematical value, a vector is its element list, and a struct is the
    list of its members in declaration order. [wt t v] says that [v] is an
    object of type [t]. *)

From stdpp Require Import base list strings decidable.
From Stdlib Require Import ZArith Lia Floats Ascii.
From S2P Require Import Prelude CInt.

Local Set Warnings "-register-all".

(** ** Static types *)

(** The primitive overloads. [PNull] is [ooknn::JsonNull]. *)
Inductive prim := PBool | PInt (k : ity) | PDouble | PString | PNull.

Local Unset Elimination Schemes.
Inductive ty :=
  | TPrim (p : prim)
  | TVec (t : ty)
  | TStruct (fields : list (string * ty)) (decl : list string).
Local Set Elimination Schemes.

(** The induction principle of [ty], with a hypothesis for every field of
    a struct. *)
Section ty_ind.
Variable P : ty -> Prop.
Hypothesis HPrim : forall p, P (TPrim p).
Hypothesis HVec : forall t, P t -> P (TVec t).
Hypothesis HStruct : forall fs decl, Forall (fun f => P f.2) fs -> P (TStruct fs decl).

Fixpoint ty_nested_ind (t : ty) : P t :=
  match t with
  | TPrim p => HPrim p
  | TVec t' => HVec t' (ty_nested_ind t')
  | TStruct fs decl =>
      HStruct fs decl
        ((fix go (fs : list (string * ty)) : Forall (fun f => P f.2) fs :=
            match fs with
            | [] => Forall_nil _
            | (n, ft) :: fs' => @Forall_cons _ (fun f => P f.2) (n, ft) fs' (ty_nested_ind ft) (go fs')
            end) fs)
  end.
End ty_ind.

(** ** Values *)

Inductive value :=
  | VBool (b : bool)
  | VInt (z : Z)
  | VDouble (d : float)
  | VString (s : string)
  | VNull
  | VVec (elems : list value)
  | VStruct (members : list value).

(** The data member named [n]: the position of the first field with that
    name ([length fs] when there is none). *)
Fixpoint field_index (n : string) (fs : list (string * ty)) : nat :=
  match fs with
  | [] => 0
  | (k, _) :: fs' => if decide (k = n) then 0 else S (field_index n fs')
  end.

(** [v.name], read and written in place. *)
Definition field_get (i : nat) (v : value) : value :=
  if v is VStruct vs then default VNull (vs !! i) else VNull.
Definition field_set (i : nat) (v x : value) : value :=
  if v is VStruct vs then VStruct (<[i:=x]> vs) else v.

(** Reading an object through its static type. *)
Definition as_bool (v : value) : bool := if v is VBool b then b else false.
Definition as_int (v : value) : Z := if v is VInt z then z else 0%Z.
Definition as_double (v : value) : float := if v is VDouble d then d else 0%float.
Definition as_string (v : value) : string := if v is VString s then s else "".

(** [v[i]] of a vector, read and written in place. *)
Definition as_list (v : value) : list value := if v is VVec l then l else [].
Definition elem_get (i : nat) (v : value) : value := default VNull (as_list v !! i).
Definition elem_set (i : nat) (v x : value) : value :=
  if v is VVec l then VVec (<[i:=x]> l) else v.

(** Value-initialisation [T()]: zero, [false], the empty string, the empty
    vector, and member-wise for an aggregate. *)
Definition prim_init (p : prim) : value :=
  match p with
  | PBool => VBool false
  | PInt _ => VInt 0
  | PDouble => VDouble 0%float
  | PString => VString ""
  | PNull => VNull
  end.

Fixpoint value_init (t : ty) : value :=
  match t with
  | TPrim p => prim_init p
  | TVec _ => VVec []
  | TStruct fs _ => VStruct (map (fun '(_, ft) => value_init ft) fs)
  end.

(** [v.emplace_back()]. *)
Definition emplace_back (t : ty) (v : value) : value := VVec (as_list v ++ [value_init t]).

(** ** C strings

    [std::string(const char * )] stops at the first NUL byte. *)
Fixpoint cstr (s : string) : string :=
  match s with
  | EmptyString => EmptyString
  | String c s' => if Ascii.eqb c Ascii.zero then EmptyString else String c (cstr s')
  end.

Fixpoint nul_free (s : string) : bool :=
  match s with
  | EmptyString => true
  | String c s' => negb (Ascii.eqb c Ascii.zero) && nul_free s'
  end.

(** ** Checks over a typed value

    [tyval_all pp pv t v] checks that [v] has the shape of [t], that [pp]
    holds at every primitive, and that [pv] holds at every vector. *)
Fixpoint tyval_all (pp : prim -> value -> bool) (pv : list value -> bool)
    (t : ty) (v : value) : bool :=
  match t, v with
  | TPrim p, _ => pp p v
  | TVec t', VVec l => pv l && forallb (tyval_all pp pv t') l
  | TStruct fs _, VStruct vs =>
      (fix go (fs : list (string * ty)) (vs : list value) : bool :=
         match fs, vs with
         | [], [] => true
         | (_, ft) :: fs', x :: vs' => tyval_all pp pv ft x && go fs' vs'
         | _, _ => false
         end) fs vs
  | _, _ => false
  end.

Definition wt_prim (p : prim) (v : value) : bool :=
  match p, v with
  | PBool, VBool _ | PDouble, VDouble _ | PString, VString _ | PNull, VNull => true
  | PInt k, VInt z => in_range k z
  | _, _ => false
  end.

(** [v] is an object of type [t]; every integer fits its type. *)
Definition wt : ty -> value -> bool := tyval_all wt_prim (fun _ => true).

(** Every string is free of NUL bytes and every double is finite: the
    values rapidjson can print and parse back. *)
Definition portable_prim (p : prim) (v : value) : bool :=
  match p, v with
  | PString, VString s => nul_free s
  | PDouble, VDouble d => PrimFloat.is_finite d
  | _, _ => true
  end.
Definition portable : ty -> value -> bool := tyval_all portable_prim (fun _ => true).

(** Every vector in [v] is empty. *)
Definition vecs_empty : ty -> value -> bool :=
  tyval_all (fun _ _ => true) (fun l => if l is [] then true else false).

(** The type has no [std::vector] anywhere. *)
Fixpoint novec (t : ty) : bool :=
  match t with
  | TPrim _ => true
  | TVec _ => false
  | TStruct fs _ => forallb (fun '(_, ft) => novec ft) fs
  end.

(** A [REFLECT_STRUCT] declaration that lists every data member exactly
    once, recursively. (C++ already makes member names unique.) *)
Fixpoint wf_ty (t : ty) : bool :=
  match t with
  | TPrim _ => true
  | TVec t' => wf_ty t'
  | TStruct fs decl =>
      bool_decide (NoDup (fs.*1)) && bool_decide (NoDup decl)
      && forallb (fun n => bool_decide (n ∈ fs.*1)) decl
      && forallb (fun n => bool_decide (n ∈ decl)) (fs.*1)
      && (fix go (fs : list (string * ty)) : bool :=
            match fs with
            | [] => true
            | (_, ft) :: fs' => wf_ty ft && go fs'
            end) fs
  end.

(** ** Lemmas *)

Section tyval_all.
Context (pp : prim -> value -> bool) (pv : list value -> bool).

Lemma tyval_all_struct fs decl vs :
  tyval_all pp pv (TStruct fs decl) (VStruct vs) = true <->
  Forall2 (fun f x => tyval_all pp pv f.2 x = true) fs vs.
Proof.
  simpl. revert vs. induction fs as [|[n ft] fs IH]; intros [|x vs].
  - split; constructor.
  - split; [discriminate|intros H; inversion H].
  - split; [discriminate|intros H; inversion H].
  - rewrite andb_true_iff, IH. split.
    + intros [??]; constructor; auto.
    + intros H; inversion H; subst; auto.
Qed.

Lemma tyval_all_vec t l :
  tyval_all pp pv (TVec t) (VVec l) = true <->
  pv l = true /\ Forall (fun x => tyval_all pp pv t x = true) l.
Proof. simpl. rewrite andb_true_iff, forallb_forall, Forall_forall. done. Qed.

(** A value of struct type is a struct with one member per field. *)
Lemma tyval_all_struct_inv fs decl v :
  tyval_all pp pv (TStruct fs decl) v = true ->
  exists vs, v = VStruct vs /\ Forall2 (fun f x => tyval_all pp pv f.2 x = true) fs vs.
Proof.
  destruct v; try discriminate. intros H. eexists; split; [done|].
  by apply tyval_all_struct in H.
Qed.

Lemma tyval_all_vec_inv t v :
  tyval_all pp pv (TVec t) v = true ->
  exists l, v = VVec l /\ pv l = true /\ Forall (fun x => tyval_all pp pv t x = true) l.
Proof.
  destruct v; try discriminate. intros H. eexists; split; [done|].
  by apply tyval_all_vec in H.
Qed.
End tyval_all.

Lemma Forall2_map_l_fields (P : (string * ty) -> value -> Prop) (g : ty -> value) fs :
  Forall (fun f => P f (g f.2)) fs ->
  Forall2 P fs (map (fun '(_, ft) => g ft) fs).
Proof. induction 1 as [|[n ft] fs Hf _ IH]; simpl; constructor; auto. Qed.

(** Value-initialised objects are well typed and have empty vectors. *)
Lemma tyval_all_value_init pp pv t :
  (forall p, pp p (prim_init p) = true) -> pv [] = true ->
  tyval_all pp pv t (value_init t) = true.
Proof.
  intros Hp Hv. induction t as [p|t IH|fs decl IH] using ty_nested_ind.
  - apply Hp.
  - simpl. by rewrite Hv.
  - simpl value_init. apply tyval_all_struct.
    apply Forall2_map_l_fields. done.
Qed.

Lemma wt_value_init t : wt t (value_init t) = true.
Proof. apply tyval_all_value_init; [intros [|[]| | |]; reflexivity|done]. Qed.

Lemma vecs_empty_value_init t : vecs_empty t (value_init t) = true.
Proof. by apply tyval_all_value_init. Qed.

(** The declared name [n] resolves to the data member of that name. *)
Lemma field_index_lookup n fs :
  n ∈ fs.*1 -> exists ft, fs !! field_index n fs = Some (n, ft).
Proof.
  induction fs as [|[k ft] fs IH]; simpl; intros Hn; [by apply elem_of_nil in Hn|].
  case_decide as Hk; [subst; eauto|].
  apply elem_of_cons in Hn as [->|Hn]; [done|]. auto.
Qed.

(** A field at position [field_index n fs] is named [n]. *)
Lemma field_index_name n fs k ft :
  fs !! field_index n fs = Some (k, ft) -> k = n.
Proof.
  induction fs as [|[k' ft'] fs IH]; simpl; [discriminate|].
  case_decide; simpl; [by intros [= -> _]|apply IH].
Qed.

Lemma field_index_nth n fs i ft :
  NoDup (fs.*1) -> fs !! i = Some (n, ft) -> field_index n fs = i.
Proof.
  revert i. induction fs as [|[k ft'] fs IH]; intros i Hnd Hi; [done|].
  simpl in *. inversion Hnd as [|? ? Hk Hnd']; subst.
  destruct i as [|i]; simpl in Hi.
  - injection Hi as -> ->. by rewrite decide_True.
  - rewrite decide_False; [by erewrite IH|].
    intros ->. apply Hk. apply list_elem_of_lookup.
    exists i. rewrite list_lookup_fmap, Hi. done.
Qed.

Lemma field_get_set_eq vs i x :
  i < length vs -> field_get i (field_set i (VStruct vs) x) = x.
Proof. intros Hi. simpl. by rewrite list_lookup_insert_eq. Qed.

Lemma field_get_set_ne vs i j x :
  i ≠ j -> field_get j (field_set i (VStruct vs) x) = field_get j (VStruct vs).
Proof. intros Hij. simpl. by rewrite list_lookup_insert_ne. Qed.

(** Writing the field at [i] does not change the field named [n'] when
    the field at [i] has another name. *)
Lemma field_get_set_other fs i n ft n' v x :
  fs !! i = Some (n, ft) -> n' <> n ->
  field_get (field_index n' fs) (field_set i v x) = field_get (field_index n' fs) v.
Proof.
  intros Hi Hn. destruct v as [| | | | | |vs]; try done.
  apply field_get_set_ne. intros Heq. rewrite Heq in Hi.
  by apply field_index_name in Hi.
Qed.

Lemma field_set_other_get fs i n ft n' v x :
  fs !! i = Some (n, ft) -> n' <> n ->
  field_get i (field_set (field_index n' fs) v x) = field_get i v.
Proof.
  intros Hi Hn. destruct v as [| | | | | |vs]; try done.
  apply field_get_set_ne. intros Heq. rewrite <- Heq in Hi.
  by apply field_index_name in Hi.
Qed.

(** Writing back a member that was not changed leaves the object as it
    was. *)
Lemma field_set_get i v : field_set i v (field_get i v) = v.
Proof.
  destruct v as [| | | | |l|vs]; try done. simpl.
  destruct (vs !! i) eqn:Hi; simpl.
  - by rewrite list_insert_id.
  - apply lookup_ge_None in Hi. by rewrite list_insert_ge.
Qed.

Lemma elem_set_get i v : elem_set i v (elem_get i v) = v.
Proof.
  destruct v as [| | | | |l|vs]; try done. unfold elem_get. simpl.
  destruct (l !! i) eqn:Hi; simpl.
  - by rewrite list_insert_id.
  - apply lookup_ge_None in Hi. by rewrite list_insert_ge.
Qed.

(** The elements of [k ++ l] at the positions of [l]. *)
Lemma map_seq_lookup {B} (f : value -> B) (k l : list value) :
  map (fun i => f (default VNull ((k ++ l) !! i))) (seq (length k) (length l)) = map f l.
Proof.
  revert k. induction l as [|x l IH]; intros k; [done|]. simpl.
  rewrite lookup_app_r, Nat.sub_diag by lia. simpl. f_equal.
  replace (k ++ x :: l) with ((k ++ [x]) ++ l) by (rewrite <- app_assoc; done).
  rewrite <- (IH (k ++ [x])), length_app, Nat.add_1_r. done.
Qed.

(** A member of a typed struct has the type of its field. *)
Lemma tyval_all_field pp pv fs decl vs i n ft :
  tyval_all pp pv (TStruct fs decl) (VStruct vs) = true -> fs !! i = Some (n, ft) ->
  tyval_all pp pv ft (field_get i (VStruct vs)) = true.
Proof.
  intros Hv Hi. apply tyval_all_struct in Hv.
  destruct (Forall2_lookup_l _ _ _ _ _ Hv Hi) as (x & Hx & Hp). simpl. by rewrite Hx.
Qed.

(** Storing an object of the field's type keeps a struct well typed. *)
Lemma tyval_all_field_set pp pv fs decl vs i n ft y :
  tyval_all pp pv (TStruct fs decl) (VStruct vs) = true -> fs !! i = Some (n, ft) ->
  tyval_all pp pv ft y = true ->
  tyval_all pp pv (TStruct fs decl) (field_set i (VStruct vs) y) = true.
Proof.
  intros Hv Hi Hy. apply tyval_all_struct in Hv. apply tyval_all_struct. simpl.
  rewrite <- (list_insert_id fs i (n, ft)) by done. by apply Forall2_insert.
Qed.

(** ** Typing of the in-place updates *)

(** Writing an object of the field's type into a field keeps a struct
    well typed; a write out of range does nothing. *)
Lemma wt_field_set fs decl v i y :
  wt (TStruct fs decl) v = true ->
  (forall n ft, fs !! i = Some (n, ft) -> wt ft y = true) ->
  wt (TStruct fs decl) (field_set i v y) = true.
Proof.
  intros Hv Hy. destruct (tyval_all_struct_inv _ _ _ _ _ Hv) as (vs & -> & Hvs).
  destruct (fs !! i) as [[n ft]|] eqn:Hi.
  - apply (tyval_all_field_set _ _ fs decl vs i n ft); [done|done|]. by apply (Hy n).
  - simpl. rewrite list_insert_ge; [done|].
    rewrite <- (Forall2_length Hvs). by apply lookup_ge_None.
Qed.

Lemma wt_elem_set t v i y :
  wt (TVec t) v = true -> wt t y = true -> wt (TVec t) (elem_set i v y) = true.
Proof.
  intros Hv Hy. destruct (tyval_all_vec_inv _ _ _ _ Hv) as (l & -> & _ & Hl).
  simpl. apply tyval_all_vec. split; [done|]. by apply Forall_insert.
Qed.

Lemma wt_elem_get t l i x : wt (TVec t) (VVec l) = true -> l !! i = Some x -> wt t x = true.
Proof. intros Hv Hi. apply tyval_all_vec in Hv as [_ Hl]. exact (Forall_lookup_1 _ _ _ _ Hl Hi). Qed.

Lemma wt_emplace_back t v : wt (TVec t) v = true -> wt (TVec t) (emplace_back t v) = true.
Proof.
  intros Hv. destruct (tyval_all_vec_inv _ _ _ _ Hv) as (l & -> & _ & Hl).
  apply tyval_all_vec. split; [done|]. simpl. apply Forall_app. split; [done|].
  constructor; [apply wt_value_init|done].
Qed.

(** After [emplace_back], [v.back()] is the new element. *)
Lemma elem_get_last (l : list value) y :
  elem_get (pred (length (l ++ [y]))) (VVec (l ++ [y])) = y.
Proof.
  unfold elem_get. simpl. rewrite length_app, Nat.add_1_r. simpl.
  by rewrite lookup_app_r, Nat.sub_diag by lia.
Qed.

Lemma insert_last {A} (l : list A) y x :
  <[pred (length (l ++ [y])) := x]> (l ++ [y]) = l ++ [x].
Proof.
  rewrite length_app, Nat.add_1_r. simpl.
  rewrite <- (Nat.add_0_r (length l)), insert_app_r. done.
Qed.

(** [std::string(s.c_str())] is [s] exactly when [s] has no NUL byte. *)
Lemma cstr_nul_free s : nul_free s = true -> cstr s = s.
Proof.
  induction s as [|c s IH]; simpl; [done|].
  rewrite andb_true_iff, negb_true_iff. intros [-> Hs]. by rewrite IH.
Qed.

Lemma forallb_decide_Forall {A} (P : A -> Prop) `{!forall x, Decision (P x)} l :
  forallb (fun x => bool_decide (P x)) l = true <-> Forall P l.
Proof.
  rewrite forallb_forall, Forall_forall.
  split; intros Hall x Hx.
  - apply (bool_decide_eq_true_1 (P x)), Hall, Hx.
  - apply bool_decide_eq_true_2, Hall, Hx.
Qed.

(** A string with a NUL byte is cut short by [std::string(const char * )]. *)
Lemma cstr_shorter s : nul_free s = false -> String.length (cstr s) < String.length s.
Proof.
  induction s as [|c s IH]; simpl; [discriminate|].
  destruct (Ascii.eqb c Ascii.zero); simpl; [lia|]. intros Hs. specialize (IH Hs). lia.
Qed.

Lemma wf_ty_struct fs decl :
  wf_ty (TStruct fs decl) = true <->
  NoDup (fs.*1) /\ NoDup decl /\ Forall (fun n => n ∈ fs.*1) decl /\
  Forall (fun n => n ∈ decl) (fs.*1) /\ Forall (fun f => wf_ty f.2 = true) fs.
Proof.
  assert (Hgo : (fix go (fs : list (string * ty)) : bool :=
            match fs with [] => true | (_, ft) :: fs' => wf_ty ft && go fs' end) fs = true
          <-> Forall (fun f => wf_ty f.2 = true) fs).
  { induction fs as [|[n ft] fs IH]; simpl; [split; auto|].
    rewrite andb_true_iff, IH, Forall_cons_iff. done. }
  simpl. rewrite !andb_true_iff, !bool_decide_eq_true, !forallb_decide_Forall, Hgo.
  tauto.
Qed.

#[export] Hint Resolve wt_value_init vecs_empty_value_init cstr_nul_free : reflect.

Lemma novec_struct fs decl :
  novec (TStruct fs decl) = true -> Forall (fun f => novec f.2 = true) fs.
Proof.
  simpl. intros H. apply Forall_forall. intros [n ft] Hin.
  exact (proj1 (forallb_forall _ fs) H (n, ft) Hin).
Qed.

