(* ===== verification/Visitor.v ===== *)
(** * The visitor interface and the generic traversal

    [reflect.hpp] is written once for both directions. The overloads
    [reflect(Vis&, T&)] for primitive [T], the [std::vector<T>] templates,
    [reflectMemberStart], [reflectMemberEnd] and [reflectMember] are
    provided per visitor type. The body that [REFLECT_STRUCT] generates
    is generic in [Vis]. The class [Visitor] is that overload set. The
    Fixpoint [reflect] is the compile-time dispatch on the static type
    together with the generated struct body. [Reader] and [Writer] give
    the two instances.

    Every operation runs in [M (Vis * value)]: the visitor object, and the
    object the current [reflect] call holds a reference to.

    Section [KeepsWt] states the interface [VisitorKeepsWt]: each
    overload keeps the object well typed, on return and on throw, and
    [reflect_keeps_wt] lifts that to every [reflect t]. *)

From stdpp Require Import base list strings.
From S2P Require Import Prelude CInt Json Types.

Class Visitor (Vis : Type) := {
  (** [reflect(Vis&, T&)] for a primitive [T] (lines 69-95) *)
  reflect_prim : prim -> M (Vis * value) unit;
  (** [reflect(Vis&, std::vector<T>&)] (lines 100-112), given the
      traversal of one element *)
  reflect_vector : ty -> M (Vis * value) unit -> M (Vis * value) unit;
  (** lines 114-120 *)
  reflectMemberStart : M (Vis * value) unit;
  (** lines 122-124 *)
  reflectMemberEnd : M (Vis * value) unit;
  (** [reflectMember(vis, name, v)] (lines 126-134), given [reflect(vis, v)] *)
  reflectMember : string -> M (Vis * value) unit -> M (Vis * value) unit
}.

Section Generic.
Context `{Visitor Vis}.

(** [REFLECT_MEMBER(name)] (line 159): [reflectMember(vis, #name, v.name)].
    [rs] are the traversals of the struct's fields, in field order. *)
Definition REFLECT_MEMBER (fs : list (string * ty)) (rs : list (M (Vis * value) unit))
    (n : string) : M (Vis * value) unit :=
  let i := field_index n fs in
  zoom (field_get i) (field_set i) (reflectMember n (nth i rs (ret tt))).

(** The generic entry point: overload resolution on the static type,
    and for a struct the body generated by [REFLECT_STRUCT]
    (lines 163-169). *)
Fixpoint reflect (t : ty) : M (Vis * value) unit :=
  match t with
  | TPrim p => reflect_prim p
  | TVec t' => reflect_vector t' (reflect t')
  | TStruct fs decl =>
      let rs := map (fun '(_, ft) => reflect ft) fs in
      reflectMemberStart ;; for_each (REFLECT_MEMBER fs rs) decl ;; reflectMemberEnd
  end.
End Generic.

(** ** Lemmas shared by both visitors *)

(** The traversal selected for a field, as a function of the field's
    type. Used with [F := reflect] and with the specifications [decode]
    and [encode]. *)
Lemma nth_field_map {X} (F : ty -> X) (d : X) (fs : list (string * ty)) i :
  nth i (map (fun '(_, ft) => F ft) fs) d =
  match fs !! i with Some (_, ft) => F ft | None => d end.
Proof.
  revert i. induction fs as [|[n ft] fs IH]; intros [|i]; simpl; auto.
Qed.

(** A relation that holds between [F ft] and [G ft] for every field
    holds between the selected traversals (the defaults being related). *)
Lemma nth_field_rel {X Y} (R : X -> Y -> Prop) (F : ty -> X) (G : ty -> Y) dx dy
    (fs : list (string * ty)) i :
  R dx dy -> Forall (fun f => R (F f.2) (G f.2)) fs ->
  R (nth i (map (fun '(_, ft) => F ft) fs) dx) (nth i (map (fun '(_, ft) => G ft) fs) dy).
Proof.
  intros Hd Hall. rewrite !nth_field_map.
  destruct (fs !! i) as [[n ft]|] eqn:Hi; [|done].
  exact (Forall_lookup_1 _ _ _ _ Hall Hi).
Qed.

Lemma reflect_struct_eq `{Visitor Vis} fs decl :
  reflect (TStruct fs decl) =
  (reflectMemberStart ;;
   for_each (REFLECT_MEMBER fs (map (fun '(_, ft) => reflect ft) fs)) decl ;;
   reflectMemberEnd).
Proof. reflexivity. Qed.

(** ** An interface: visitors that keep objects well typed

    C++'s basic exception guarantee for [reflect]: whether it returns or
    throws, the object it was given is still a valid object of its type.
    [keeps_wt t k] states it of one operation. The class [VisitorKeepsWt]
    is what a visitor must promise of its overloads; [reflect_keeps_wt]
    derives the guarantee for the generic traversal of every type. The
    reader and the writer give the instances. *)

Section KeepsWt.
Context `{Visitor Vis}.

Definition keeps_wt {A} (t : ty) (k : M (Vis * value) A) : Prop :=
  forall w v, wt t v = true -> wt t (k (w, v)).2.2 = true.

Lemma keeps_wt_ret {A} t (a : A) : keeps_wt t (ret a).
Proof. by intros w v Hv. Qed.

Lemma keeps_wt_throw {A} t e : keeps_wt t (throw (A:=A) e).
Proof. by intros w v Hv. Qed.

Lemma keeps_wt_get t : keeps_wt t get.
Proof. by intros w v Hv. Qed.

Lemma keeps_wt_on_vis {A} t (k : M Vis A) : keeps_wt t (on_vis k).
Proof. intros w v Hv. unfold on_vis. by destruct (k w). Qed.

Lemma keeps_wt_bind {A B} t (k : M (Vis * value) A) (f : A -> M (Vis * value) B) :
  keeps_wt t k -> (forall a, keeps_wt t (f a)) -> keeps_wt t (bind k f).
Proof.
  intros Hk Hf w v Hv. specialize (Hk w v Hv). unfold bind.
  destruct (k (w, v)) as [[a|e] [w' v']]; simpl in *; [by apply Hf|done].
Qed.

Lemma keeps_wt_for_each {A} t (f : A -> M (Vis * value) unit) l :
  (forall a, keeps_wt t (f a)) -> keeps_wt t (for_each f l).
Proof.
  intros Hf. induction l as [|a l IH]; simpl; [apply keeps_wt_ret|].
  by apply keeps_wt_bind.
Qed.

Lemma keeps_wt_modify t (f : Vis * value -> Vis * value) :
  (forall w v, wt t v = true -> wt t (f (w, v)).2 = true) -> keeps_wt t (modify f).
Proof. intros Hf w v Hv. by apply Hf. Qed.

(** [v[i]] of a vector, out of range included. *)
Lemma keeps_wt_zoom_elem t i (k : M (Vis * value) unit) :
  keeps_wt t k -> keeps_wt (TVec t) (zoom (elem_get i) (elem_set i) k).
Proof.
  intros Hk w v Hv. destruct (tyval_all_vec_inv _ _ _ _ Hv) as (l & -> & _ & _).
  unfold zoom. destruct (l !! i) as [x|] eqn:Hi.
  - pose proof (Hk w x (wt_elem_get t l i x Hv Hi)) as Hx.
    unfold elem_get. simpl. rewrite Hi. simpl.
    destruct (k (w, x)) as [r [w' x']]. exact (wt_elem_set t (VVec l) i x' Hv Hx).
  - unfold elem_get. simpl. rewrite Hi. simpl. destruct (k (w, VNull)) as [r [w' x']].
    simpl. rewrite list_insert_ge; [done|]. by apply lookup_ge_None.
Qed.

(** [v.name] of a struct, [name] not a field included. *)
Lemma keeps_wt_zoom_field fs decl i (k : M (Vis * value) unit) :
  (forall n ft, fs !! i = Some (n, ft) -> keeps_wt ft k) ->
  keeps_wt (TStruct fs decl) (zoom (field_get i) (field_set i) k).
Proof.
  intros Hk w v Hv. unfold zoom.
  destruct (k (w, field_get i v)) as [r [w' x']] eqn:E. simpl.
  apply wt_field_set; [done|]. intros n ft Hi.
  destruct (tyval_all_struct_inv _ _ _ _ _ Hv) as (vs & -> & _).
  pose proof (Hk n ft Hi w _ (tyval_all_field _ _ fs decl vs i n ft Hv Hi)) as Hx.
  by rewrite E in Hx.
Qed.

End KeepsWt.

Create HintDb keeps_wt.
#[export] Hint Resolve keeps_wt_ret keeps_wt_throw keeps_wt_get keeps_wt_on_vis : keeps_wt.

(** Splits an operation built from [bind], [for_each], [on_vis] and case
    analysis into the steps the hint database [keeps_wt] closes. *)
Ltac keeps_wt_split :=
  repeat first
    [ apply keeps_wt_bind; [|intros ?]
    | apply keeps_wt_for_each; intros ?
    | progress eauto with keeps_wt
    | match goal with
      | |- keeps_wt _ (if ?b then _ else _) => destruct b
      | |- keeps_wt _ (match ?x with _ => _ end) => destruct x
      end ].

Class VisitorKeepsWt (Vis : Type) `{Visitor Vis} := {
  prim_keeps_wt p : keeps_wt (TPrim p) (reflect_prim p);
  vector_keeps_wt t k : keeps_wt t k -> keeps_wt (TVec t) (reflect_vector t k);
  start_keeps_wt fs decl : keeps_wt (TStruct fs decl) reflectMemberStart;
  end_keeps_wt fs decl : keeps_wt (TStruct fs decl) reflectMemberEnd;
  member_keeps_wt t n k : keeps_wt t k -> keeps_wt t (reflectMember n k)
}.

(** The generic traversal keeps objects well typed at every visitor
    that promises it of its overloads. *)
Lemma reflect_keeps_wt `{VisitorKeepsWt Vis} t : keeps_wt t (reflect t).
Proof.
  induction t as [p|t IH|fs decl IH] using ty_nested_ind.
  - apply prim_keeps_wt.
  - by apply vector_keeps_wt.
  - rewrite reflect_struct_eq.
    apply keeps_wt_bind; [apply start_keeps_wt|intros _].
    apply keeps_wt_bind; [|intros _; apply end_keeps_wt].
    apply keeps_wt_for_each. intros n. unfold REFLECT_MEMBER.
    apply keeps_wt_zoom_field. intros n' ft Hi. apply member_keeps_wt.
    rewrite nth_field_map, Hi. exact (Forall_lookup_1 _ _ _ _ IH Hi).
Qed.
