(* ===== verification/Reader.v ===== *)
(** * The reading direction: [JsonReader]

    [JsonReader] (lines 21-33) holds [m], a pointer to the node being
    visited, and [path_], a stack of member names pushed on the way down.
    [iterArray] and [member] (lines 136-157) point [m] at a child, run a
    callback and point [m] back. The reader overloads (lines 69-80, 94,
    101-106, 114-116, 126-129) form the instance [JsonReader_Visitor].

    [decode] is a pure specification of reading. It has no pointer and no
    path, and a fold in place of the callbacks. [reflect_refines_decode]
    shows that the generic [reflect] at this instance implements it. On
    success the reader's [m] and [path_] are as they were before the
    call. The rest of the file proves the properties of reading: typing
    and integer conversions, vectors, the members of a struct (declared,
    undeclared, absent), the exceptions and the shape checks, the basic
    exception guarantee (the [VisitorKeepsWt] instance), the progress of
    the array loop, the idempotence of reading, and which member's
    failure a struct read reports. *)

From stdpp Require Import base list strings.
From S2P Require Import Prelude CInt Json Types Visitor.

(** ** The reader object *)

Record JsonReader := mkReader { m : json; path_ : list string }.

(** [JsonReader(rapidjson::Value *m) : m(m) {}] (line 25): the reader
    starts at [m] with an empty [path_]. *)
Definition JsonReader_ctor (node : json) : JsonReader := mkReader node [].

Definition set_m (node : json) : M JsonReader unit :=
  modify (fun vis => mkReader node (path_ vis)).
Definition push_path (x : string) : M JsonReader unit :=
  modify (fun vis => mkReader (m vis) (path_ vis ++ [x])).
Definition pop_path : M JsonReader unit :=
  modify (fun vis => mkReader (m vis) (removelast (path_ vis))).

Abbreviation RM := (M (JsonReader * value)).

(** [auto saved = m; m = node; fn(); m = saved;] as written in both
    [iterArray] (lines 140-143) and [member] (lines 151-154). If [fn]
    throws, [m = saved] is never executed. *)
Definition with_node (node : json) (fn : RM unit) : RM unit :=
  let* saved := on_vis (gets m) in
  on_vis (set_m node) ;; fn ;; on_vis (set_m saved).

(** [JsonReader::iterArray] (lines 136-146). *)
Definition iterArray (fn : RM unit) : RM unit :=
  let* vis := on_vis get in
  if negb (IsArray (m vis)) then throw (InvalidArgument "array") else
  on_vis (push_path "0") ;;
  for_each (fun entry => with_node entry fn) (GetArray (m vis)) ;;
  on_vis pop_path.

(** [JsonReader::member] (lines 147-157). *)
Definition member (name : string) (fn : RM unit) : RM unit :=
  on_vis (push_path name) ;;
  let* vis := on_vis get in
  match FindMember name (m vis) with
  | Some child => with_node child fn
  | None => ret tt
  end ;;
  on_vis pop_path.

(** [JsonReader::getString] (line 56): [m->GetString()] converted to
    [std::string], which stops at the first NUL byte. *)
Definition getString (node : json) : string := cstr (GetString node).

(** [JsonReader::startObject] and [endObject] (lines 26-27): empty. No
    overload calls them; the reader's [reflectMemberStart] is the free
    function at line 114. *)
Definition reader_startObject : M JsonReader unit := ret tt.
Definition reader_endObject : M JsonReader unit := ret tt.

(** [JsonReader::isNull] (line 57). No overload calls it: the
    [JsonNull] overload (line 94) reads nothing. *)
Definition isNull : M JsonReader bool := gets (fun vis => IsNull (m vis)).

(** ** The reader's primitive overloads (lines 69-80 and 94)

    For each primitive: the name thrown on a mismatch, the [Is*] test, and
    the value stored on success, with the cast of the source. [JsonNull]
    has no rule: its overload does nothing. *)
Definition read_rule (p : prim) : option (string * (json -> bool) * (json -> value)) :=
  match p with
  | PBool => Some ("bool", IsBool, fun j => VBool (GetBool j))
  | PInt UChar => Some ("uint8_t", IsInt, fun j => VInt (cast UChar (GetInt j)))
  | PInt Short => Some ("short", IsInt, fun j => VInt (cast Short (GetInt j)))
  | PInt UShort => Some ("unsigned short", IsInt, fun j => VInt (cast UShort (GetInt j)))
  | PInt Int => Some ("int", IsInt, fun j => VInt (GetInt j))
  | PInt UInt => Some ("unsigned", IsUint64, fun j => VInt (cast UInt (GetUint64 j)))
  | PInt Long => Some ("long", IsInt64, fun j => VInt (cast Long (GetInt64 j)))
  | PInt ULong => Some ("unsigned long", IsUint64, fun j => VInt (cast ULong (GetUint64 j)))
  | PInt LongLong => Some ("long long", IsInt64, fun j => VInt (GetInt64 j))
  | PInt ULongLong => Some ("unsigned long long", IsUint64, fun j => VInt (GetUint64 j))
  | PDouble => Some ("double", IsDouble, fun j => VDouble (GetDouble j))
  | PString => Some ("string", IsString, fun j => VString (getString j))
  | PNull => None
  end.

Definition reader_prim (p : prim) : RM unit :=
  match read_rule p with
  | Some (what, is_kind, get_value) =>
      let* vis := on_vis get in
      if negb (is_kind (m vis)) then throw (InvalidArgument what)
      else modify (fun '(w, _) => (w, get_value (m vis)))
  | None => ret tt
  end.

(** [v.back()]: the reference to the last element. *)
Definition back {A} (k : RM A) : RM A :=
  fun s => let i := pred (length (as_list s.2)) in zoom (elem_get i) (elem_set i) k s.

(** [reflect(JsonReader&, std::vector<T>&)] (lines 100-106). *)
Definition reader_vector (t : ty) (elem : RM unit) : RM unit :=
  iterArray (modify (fun '(w, v) => (w, emplace_back t v)) ;; back elem).

(** [reflectMemberStart(JsonReader&)] (lines 114-116). *)
Definition reader_member_start : RM unit :=
  let* vis := on_vis get in
  if negb (IsObject (m vis)) then throw (InvalidArgument "object") else ret tt.

(** The reader's overload set. [reflectMemberEnd] is the generic no-op
    (lines 122-123). [reflectMember] is [vis.member(name, ...)]
    (lines 126-129). *)
#[export] Instance JsonReader_Visitor : Visitor JsonReader := {|
  reflect_prim := reader_prim;
  reflect_vector := reader_vector;
  reflectMemberStart := reader_member_start;
  reflectMemberEnd := ret tt;
  reflectMember := member
|}.

(** ** The specification of reading *)

Definition decode_prim (p : prim) (j : json) (v : value) : outcome value :=
  match read_rule p with
  | Some (what, is_kind, get_value) =>
      if is_kind j then Ok (get_value j) else Throw (InvalidArgument what)
  | None => Ok v
  end.

(** One array entry: append a value-initialised element and decode the
    entry into it. *)
Definition decode_elem (d : json -> value -> outcome value) (t : ty) (e : json)
    (v : value) : outcome value :=
  match d e (value_init t) with
  | Ok x => Ok (VVec (as_list v ++ [x]))
  | Throw ex => Throw ex
  end.

(** One declared member: absent members are skipped. *)
Definition decode_member (fs : list (string * ty)) (ds : list (json -> value -> outcome value))
    (j : json) (n : string) (v : value) : outcome value :=
  match FindMember n j with
  | None => Ok v
  | Some c =>
      let i := field_index n fs in
      match nth i ds (fun _ x => Ok x) c (field_get i v) with
      | Ok x => Ok (field_set i v x)
      | Throw e => Throw e
      end
  end.

Fixpoint decode (t : ty) (j : json) (v : value) : outcome value :=
  match t with
  | TPrim p => decode_prim p j v
  | TVec t' =>
      if IsArray j then foldM (decode_elem (decode t') t') (GetArray j) v
      else Throw (InvalidArgument "array")
  | TStruct fs decl =>
      if IsObject j then foldM (decode_member fs (map (fun '(_, ft) => decode ft) fs) j) decl v
      else Throw (InvalidArgument "object")
  end.

(** The reader state transformer of a pure decoder: decode the node [m]
    points at into the referenced object, and leave the reader as it
    was. *)
Definition rd_spec (g : json -> value -> outcome value) (s : JsonReader * value)
    : outcome (JsonReader * value) :=
  match g (m s.1) s.2 with Ok v' => Ok (s.1, v') | Throw e => Throw e end.

(** ** Refinement *)

Ltac rd_run :=
  cbv [bind ret throw get gets put modify on_vis zoom set_m push_path pop_path
       back rd_spec] in *; simpl in *.

Lemma with_node_refines node fn g :
  refines fn (rd_spec g) -> refines (with_node node fn) (rd_spec (fun _ => g node)).
Proof.
  intros Hfn [vis v]. specialize (Hfn (mkReader node (path_ vis), v)).
  unfold with_node. rd_run. destruct (g node v) as [v'|e].
  - rewrite Hfn. by destruct vis.
  - destruct Hfn as [s' ->]. eauto.
Qed.

Lemma rd_spec_eq g vis v :
  rd_spec g (vis, v) = match g (m vis) v with Ok v' => Ok (vis, v') | Throw e => Throw e end.
Proof. reflexivity. Qed.

Lemma fold_rd_spec {A} (h : A -> json -> value -> outcome value) l vis v :
  fold_spec (fun a => rd_spec (h a)) l (vis, v) =
  rd_spec (fun j => foldM (fun a => h a j) l) (vis, v).
Proof.
  revert v. induction l as [|a l IH]; intros v; [done|].
  cbn [fold_spec]. unfold seq_spec. rewrite !rd_spec_eq. cbn [foldM].
  destruct (h a (m vis) v) as [v'|e]; [|done]. by rewrite IH, rd_spec_eq.
Qed.

Lemma zoom_rd_spec getf setf g s :
  zoom_spec getf setf (rd_spec g) s =
  rd_spec (fun j v => match g j (getf v) with Ok x => Ok (setf v x) | Throw e => Throw e end) s.
Proof. destruct s as [vis v]. unfold zoom_spec, rd_spec. simpl. by destruct (g _ _). Qed.

Lemma iterArray_refines fn g :
  refines fn (rd_spec g) ->
  refines (iterArray fn)
    (rd_spec (fun j v => if IsArray j then foldM g (GetArray j) v
                         else Throw (InvalidArgument "array"))).
Proof.
  intros Hfn [vis v].
  pose proof (refines_for_each (fun entry => with_node entry fn)
                (fun e => rd_spec (fun _ => g e)) (GetArray (m vis))
                (fun e _ => with_node_refines e fn g Hfn)
                (mkReader (m vis) (path_ vis ++ ["0"]), v)) as Hloop.
  rewrite fold_rd_spec in Hloop.
  unfold iterArray. rd_run.
  destruct (IsArray (m vis)); simpl; [|eauto].
  destruct (foldM g (GetArray (m vis)) v) as [v'|e].
  - rewrite Hloop. simpl. rewrite removelast_snoc. by destruct vis.
  - destruct Hloop as [s' ->]. eauto.
Qed.

Lemma member_refines name fn g :
  refines fn (rd_spec g) ->
  refines (member name fn)
    (rd_spec (fun j v => match FindMember name j with Some c => g c v | None => Ok v end)).
Proof.
  intros Hfn [vis v]. unfold member.
  destruct (FindMember name (m vis)) as [c|] eqn:Hf.
  - pose proof (with_node_refines c fn g Hfn (mkReader (m vis) (path_ vis ++ [name]), v)) as Hw.
    rd_run. rewrite Hf. destruct (g c v) as [v'|e].
    + rewrite Hw. simpl. rewrite removelast_snoc. by destruct vis.
    + destruct Hw as [s' ->]. eauto.
  - rd_run. rewrite Hf. simpl. rewrite removelast_snoc. by destruct vis.
Qed.

Lemma emplace_back_refines t elem g :
  refines elem (rd_spec g) ->
  refines (modify (fun '(w, v) => (w, emplace_back t v)) ;; back elem) (rd_spec (decode_elem g t)).
Proof.
  intros Hel [vis v]. pose proof (Hel (vis, value_init t)) as H.
  unfold decode_elem, emplace_back. rd_run.
  rewrite elem_get_last. destruct (g (m vis) (value_init t)) as [x|e].
  - rewrite H. by rewrite insert_last.
  - destruct H as [[vis' x'] ->]. eauto.
Qed.

Lemma reader_prim_refines p : refines (reader_prim p) (rd_spec (decode_prim p)).
Proof.
  intros [vis v]. unfold reader_prim, decode_prim.
  destruct (read_rule p) as [[[what is_kind] get_value]|]; rd_run; [|done].
  destruct (is_kind (m vis)); simpl; eauto.
Qed.

Lemma REFLECT_MEMBER_refines fs rs ds n :
  refines (nth (field_index n fs) rs (ret tt))
          (rd_spec (nth (field_index n fs) ds (fun _ x => Ok x))) ->
  refines (REFLECT_MEMBER fs rs n) (rd_spec (fun j => decode_member fs ds j n)).
Proof.
  intros Hn. unfold REFLECT_MEMBER.
  eapply refines_ext; [|apply refines_zoom, member_refines, Hn].
  intros [vis v]. rewrite zoom_rd_spec. unfold rd_spec, decode_member. simpl.
  destruct (FindMember n (m vis)); [done|]. by rewrite field_set_get.
Qed.

Lemma ret_refines_id : refines (S:=JsonReader * value) (ret tt) (rd_spec (fun _ x => Ok x)).
Proof. by intros []. Qed.

(** The traversal selected for each declared member refines the decoder
    selected for it. *)
Lemma member_traversals_refine fs n :
  Forall (fun f => refines (reflect f.2) (rd_spec (decode f.2))) fs ->
  refines (nth (field_index n fs) (map (fun '(_, ft) => reflect ft) fs) (ret tt))
          (rd_spec (nth (field_index n fs) (map (fun '(_, ft) => decode ft) fs) (fun _ x => Ok x))).
Proof.
  apply (nth_field_rel (fun a b => refines a (rd_spec b))). apply ret_refines_id.
Qed.

(** ** Reading implements [decode] *)

(** The generic traversal at the reader instance refines the pure
    decoder: when [decode t] succeeds on the node [m] points at, [reflect]
    succeeds, stores the decoded object in the target, and leaves [m] and
    [path_] as they were; when [decode t] fails, [reflect] throws the same
    exception. *)
(** The loop that [REFLECT_STRUCT] generates over the declared members
    refines the fold of [decode_member] over them. *)
Lemma members_refine fs l :
  Forall (fun f => refines (reflect f.2) (rd_spec (decode f.2))) fs ->
  refines (for_each (REFLECT_MEMBER fs (map (fun '(_, ft) => reflect ft) fs)) l)
          (rd_spec (fun j => foldM (decode_member fs (map (fun '(_, ft) => decode ft) fs) j) l)).
Proof.
  intros IH [vis v].
  pose proof (refines_for_each _ _ l
                (fun n _ => REFLECT_MEMBER_refines fs _ _ n (member_traversals_refine fs n IH))
                (vis, v)) as Hloop.
  by rewrite fold_rd_spec in Hloop.
Qed.

Lemma reflect_refines_decode t : refines (reflect t) (rd_spec (decode t)).
Proof.
  induction t as [p|t IH|fs decl IH] using ty_nested_ind.
  - apply reader_prim_refines.
  - apply iterArray_refines, emplace_back_refines, IH.
  - intros [vis v]. pose proof (members_refine fs decl IH (vis, v)) as Hloop.
    rewrite reflect_struct_eq. cbn [reflectMemberStart reflectMemberEnd JsonReader_Visitor].
    unfold reader_member_start. simpl decode. rd_run.
    destruct (IsObject (m vis)); simpl; [|eauto].
    unfold rd_spec in Hloop. simpl in Hloop.
    destruct (foldM _ decl v) as [v'|e].
    + by rewrite Hloop.
    + destruct Hloop as [s' ->]. eauto.
Qed.

(** C2. Reading implements [decode], stated on an arbitrary reader and
    target. When [decode t] succeeds on the node [m] points at with the
    decoded object [v'], [reflect t] returns normally with [v'] stored
    and the reader unchanged: [m] is restored and [path_] popped back.
    When [decode t] throws [e], [reflect t] throws [e]. *)
Theorem reader_reflect_spec t vis v :
  match decode t (m vis) v with
  | Ok v' => reflect t (vis, v) = (Ok tt, (vis, v'))
  | Throw e => exists s', reflect t (vis, v) = (Throw e, s')
  end.
Proof.
  pose proof (reflect_refines_decode t (vis, v)) as H. unfold rd_spec in H. simpl in H.
  by destruct (decode t (m vis) v).
Qed.

(** ** Properties of reading *)

Lemma decode_prim_wt p j v v' :
  wt (TPrim p) v = true -> decode_prim p j v = Ok v' -> wt (TPrim p) v' = true.
Proof.
  unfold decode_prim. intros Hv Hd.
  destruct (read_rule p) as [[[what is_kind] get_value]|] eqn:Hr; [|by injection Hd as <-].
  destruct (is_kind j) eqn:Hk; [|discriminate]. injection Hd as <-.
  destruct p as [|[]| | |]; simpl in Hr; try discriminate; injection Hr as <- <- <-;
    unfold wt; simpl;
    try apply cast_in_range; try done; destruct j; done.
Qed.

(** The [Is*] test that the integer overload for [k] applies
    (lines 70-78): [IsInt] up to [int], [IsUint64] for [unsigned] and the
    wider unsigned types, [IsInt64] for [long] and [long long]. *)
Definition int_getter (k : ity) : ity :=
  match k with
  | UChar | Short | UShort | Int => Int
  | UInt | ULong | ULongLong => ULongLong
  | Long | LongLong => LongLong
  end.

(** C5. Integer reads. A JSON integer is accepted into a field of
    integer type [k] exactly when it fits the type of the getter that
    [k]'s overload calls ([int], [int64_t] or [uint64_t]). It is then
    stored as the C++ conversion [(k) z], that is, reduced modulo
    [2^bits]. So [300] is read into a [uint8_t] as [44], and [-1] as [255].
    [2^32 + 5] is read into an [unsigned] as [5], but [-1] is rejected
    there. *)
Theorem decode_int k z v v' :
  decode (TPrim (PInt k)) (JInt z) v = Ok v' <->
  in_range (int_getter k) z = true /\ v' = VInt (cast k z).
Proof.
  simpl. unfold decode_prim.
  destruct k; cbn [read_rule int_getter IsInt IsInt64 IsUint64 GetInt GetInt64 GetUint64];
    destruct (in_range _ z) eqn:Hr;
    (split; [intros [= <-] | intros [? ->]]); try discriminate;
    rewrite ?cast_id by done; done.
Qed.

Lemma decode_int_witness :
  decode (TPrim (PInt UChar)) (JInt 300) (VInt 0) = Ok (VInt 44) /\
  decode (TPrim (PInt UChar)) (JInt (-1)) (VInt 0) = Ok (VInt 255) /\
  decode (TPrim (PInt UInt)) (JInt (2 ^ 32 + 5)) (VInt 0) = Ok (VInt 5) /\
  decode (TPrim (PInt UInt)) (JInt (-1)) (VInt 0) <> Ok (VInt 4294967295).
Proof.
  split; [apply decode_int; split; reflexivity|].
  split; [apply decode_int; split; reflexivity|].
  split; [apply decode_int; split; reflexivity|].
  intros H. apply decode_int in H as [H _]. discriminate.
Defined.

(** Decoding the entries [es] into a vector appends, in order, one
    element per entry, each decoded from its entry into a value-initialised
    element. *)
Lemma foldM_decode_elems t es (l : list value) v' :
  foldM (decode_elem (decode t) t) es (VVec l) = Ok v' ->
  exists xs, v' = VVec (l ++ xs) /\ Forall2 (fun e x => decode t e (value_init t) = Ok x) es xs.
Proof.
  revert l. induction es as [|e es IH]; intros l Hd; simpl in Hd.
  - injection Hd as <-. exists []. by rewrite app_nil_r.
  - unfold decode_elem at 1 in Hd.
    destruct (decode t e (value_init t)) as [x|] eqn:Hx; [|discriminate]. simpl in Hd.
    destruct (IH _ Hd) as (xs & -> & Hxs). exists (x :: xs).
    rewrite <- app_assoc. split; [done|by constructor].
Qed.

(** C6. A [double] field rejects a JSON number written without a
    fraction or exponent. rapidjson marks such a number as an integer,
    and [IsDouble] is false for it. The overload at line 79 throws
    [std::invalid_argument("double")], and the reader is not moved. *)
Theorem double_rejects_integer (z : Z) (p : list string) v :
  decode (TPrim PDouble) (JInt z) v = Throw (InvalidArgument "double") /\
  reflect (TPrim PDouble) (mkReader (JInt z) p, v) =
    (Throw (InvalidArgument "double"), (mkReader (JInt z) p, v)).
Proof. split; reflexivity. Qed.

(** ** The basic exception guarantee

    The reader's overloads keep the object they are given well typed,
    on their throw paths included: [JsonReader_keeps_wt] discharges the
    interface [VisitorKeepsWt] of [Visitor]. *)

Lemma reader_prim_keeps_wt p : keeps_wt (TPrim p) (reader_prim p).
Proof.
  unfold reader_prim.
  destruct (read_rule p) as [[[what is_kind] get_value]|] eqn:Hr; [|apply keeps_wt_ret].
  apply keeps_wt_bind; [apply keeps_wt_on_vis|intros vis].
  destruct (is_kind (m vis)) eqn:Hk; simpl; [|apply keeps_wt_throw].
  apply keeps_wt_modify. intros w v Hv. simpl.
  apply (decode_prim_wt p (m vis) v); [done|]. unfold decode_prim. by rewrite Hr, Hk.
Qed.

Lemma with_node_keeps_wt t node (fn : RM unit) : keeps_wt t fn -> keeps_wt t (with_node node fn).
Proof. intros Hfn. unfold with_node. keeps_wt_split. Qed.

#[local] Hint Resolve with_node_keeps_wt : keeps_wt.

Lemma iterArray_keeps_wt t (fn : RM unit) : keeps_wt t fn -> keeps_wt t (iterArray fn).
Proof. intros Hfn. unfold iterArray. keeps_wt_split. Qed.

Lemma member_keeps_wt_reader t name (fn : RM unit) : keeps_wt t fn -> keeps_wt t (member name fn).
Proof. intros Hfn. unfold member. keeps_wt_split. Qed.

Lemma back_keeps_wt t (k : RM unit) : keeps_wt t k -> keeps_wt (TVec t) (back k).
Proof. intros Hk w v Hv. unfold back. by apply keeps_wt_zoom_elem. Qed.

Lemma reader_vector_keeps_wt t (elem : RM unit) :
  keeps_wt t elem -> keeps_wt (TVec t) (reader_vector t elem).
Proof.
  intros Hel. apply iterArray_keeps_wt, keeps_wt_bind; [|intros _; by apply back_keeps_wt].
  apply keeps_wt_modify. intros w v Hv. by apply wt_emplace_back.
Qed.

#[export] Instance JsonReader_keeps_wt : VisitorKeepsWt JsonReader.
Proof.
  split.
  - apply reader_prim_keeps_wt.
  - apply reader_vector_keeps_wt.
  - intros fs decl. unfold reflectMemberStart; simpl. unfold reader_member_start. keeps_wt_split.
  - intros fs decl. apply keeps_wt_ret.
  - apply member_keeps_wt_reader.
Qed.



(** ** Reading the members of a struct *)

(** A normal return of the reader's [reflect] is a successful [decode]
    that leaves the reader as it was. *)
Lemma reflect_ok_decode t vis v vis' v' :
  reflect t (vis, v) = (Ok tt, (vis', v')) -> decode t (m vis) v = Ok v' /\ vis' = vis.
Proof.
  intros H. pose proof (reflect_refines_decode t (vis, v)) as Hr.
  unfold rd_spec in Hr. simpl in Hr.
  destruct (decode t (m vis) v) as [x|e].
  - rewrite H in Hr. by injection Hr as -> ->.
  - destruct Hr as [s' Hr]. by rewrite H in Hr.
Qed.

(** Decoding members none of which is named [n] leaves the field named
    [n] as it was. *)
Lemma decode_members_keep fs ds j l v v' i n ft :
  fs !! i = Some (n, ft) -> n ∉ l ->
  foldM (decode_member fs ds j) l v = Ok v' -> field_get i v' = field_get i v.
Proof.
  intros Hi Hn. apply (foldM_invariant (fun x => field_get i x = field_get i v)); [|done].
  intros n' x x' Hn' Hx Hstep. unfold decode_member in Hstep.
  destruct (FindMember n' j) as [c|]; [|by injection Hstep as <-].
  destruct (nth _ _ _ c _) as [y|]; [|discriminate]. injection Hstep as <-.
  rewrite <- Hx. apply (field_set_other_get fs i n ft n' x y Hi). by intros ->.
Qed.

(** Decoding members keeps a struct a struct with as many fields. *)
Lemma decode_members_shape fs ds j l vs v' :
  foldM (decode_member fs ds j) l (VStruct vs) = Ok v' ->
  exists vs', v' = VStruct vs' /\ length vs' = length vs.
Proof.
  apply (foldM_invariant (fun x => exists vs', x = VStruct vs' /\ length vs' = length vs));
    [|by exists vs].
  intros n x x' _ (vs' & -> & Hlen) Hstep. unfold decode_member in Hstep.
  destruct (FindMember n j) as [c|]; [|injection Hstep as <-; eauto].
  destruct (nth _ _ _ c _) as [y|]; [|discriminate]. injection Hstep as <-.
  eexists. split; [done|]. by rewrite length_insert.
Qed.

(** What decoding a struct does to one declared member. *)
Lemma decode_struct_member fs decl j v v' n ft :
  wf_ty (TStruct fs decl) = true -> wt (TStruct fs decl) v = true ->
  decode (TStruct fs decl) j v = Ok v' ->
  n ∈ decl -> fs !! field_index n fs = Some (n, ft) ->
  match FindMember n j with
  | Some c => decode ft c (field_get (field_index n fs) v) = Ok (field_get (field_index n fs) v')
  | None => field_get (field_index n fs) v' = field_get (field_index n fs) v
  end.
Proof.
  intros Hwf Hv Hd Hn Hi.
  apply wf_ty_struct in Hwf as (_ & Hnd & _).
  destruct (tyval_all_struct_inv _ _ _ _ _ Hv) as (vs & -> & Hvs).
  simpl in Hd. destruct (IsObject j); [|discriminate].
  apply list_elem_of_split in Hn as (l1 & l2 & ->).
  apply NoDup_app in Hnd as (_ & Hdis & Hnd2). apply NoDup_cons in Hnd2 as [Hn2 _].
  assert (Hn1 : n ∉ l1) by (intros H; apply (Hdis n H); apply elem_of_cons; auto).
  rewrite foldM_app in Hd.
  destruct (foldM (decode_member _ _ _) l1 (VStruct vs)) as [x1|] eqn:H1; [|discriminate].
  cbn [foldM] in Hd.
  destruct (decode_member fs _ j n x1) as [x2|] eqn:H2; [|discriminate].
  rewrite (decode_members_keep _ _ _ _ _ _ _ n ft Hi Hn2 Hd).
  pose proof (decode_members_keep _ _ _ _ _ _ _ n ft Hi Hn1 H1) as Hk1.
  destruct (decode_members_shape _ _ _ _ _ _ H1) as (vs1 & -> & Hlen1).
  unfold decode_member in H2. rewrite nth_field_map, Hi in H2.
  destruct (FindMember n j) as [c|].
  - destruct (decode ft c _) as [y|] eqn:Hy; [|discriminate]. injection H2 as <-.
    change (VStruct (<[field_index n fs:=y]> vs1)) with (field_set (field_index n fs) (VStruct vs1) y).
    rewrite field_get_set_eq; [by rewrite <- Hk1|].
    rewrite Hlen1, <- (Forall2_length _ _ _ Hvs). by eapply lookup_lt_Some.
  - by injection H2 as <-.
Qed.

(** C10. Members that the struct does not declare are ignored. Reading
    an object into a struct gives the same result as reading the object
    without the members whose names are not in the [REFLECT_STRUCT] list:
    the reader only looks up declared names. *)
Theorem decode_ignores_undeclared fs decl ms v :
  decode (TStruct fs decl) (JObject ms) v =
  decode (TStruct fs decl) (JObject (filter (fun kv => kv.1 ∈ decl) ms)) v.
Proof.
  simpl. apply foldM_ext. intros n x Hn. unfold decode_member.
  by rewrite !FindMember_object, find_in_filter.
Qed.

(** C11. Data members left out of [REFLECT_STRUCT] are not touched by
    reading: after a successful read, a member whose name is not declared
    has the value it had before. *)
Theorem decode_frame_undeclared fs decl j v v' i n ft :
  fs !! i = Some (n, ft) -> n ∉ decl ->
  decode (TStruct fs decl) j v = Ok v' -> field_get i v' = field_get i v.
Proof.
  intros Hi Hn Hd. simpl in Hd. destruct (IsObject j); [|discriminate].
  exact (decode_members_keep _ _ _ _ _ _ _ _ _ Hi Hn Hd).
Qed.

Lemma decode_frame_undeclared_witness :
  let fs := [("a", TPrim (PInt Int)); ("secret", TPrim (PInt Int))] in
  fs !! 1 = Some ("secret", TPrim (PInt Int)) /\ ("secret" ∉ ["a"]) /\
  decode (TStruct fs ["a"]) (JObject [("a", JInt 1); ("secret", JInt 9)]) (VStruct [VInt 0; VInt 7]) =
    Ok (VStruct [VInt 1; VInt 7]) /\
  field_get 1 (VStruct [VInt 1; VInt 7]) = field_get 1 (VStruct [VInt 0; VInt 7]).
Proof.
  assert (Hn : "secret" ∉ ["a"]) by (apply (bool_decide_unpack _); vm_compute; reflexivity).
  split; [reflexivity|]. split; [exact Hn|]. split; [reflexivity|].
  apply (decode_frame_undeclared [("a", TPrim (PInt Int)); ("secret", TPrim (PInt Int))] ["a"] (JObject [("a", JInt 1); ("secret", JInt 9)])
           _ _ 1 "secret" (TPrim (PInt Int))); [reflexivity|exact Hn|reflexivity].
Defined.



(** C15. What reading a struct does to each declared member. Let the
    declarations list every member once and the object be well typed. If
    reading succeeds, a declared member [n] present in the node holds the
    result of reading its value into the member's old value: it is read
    once, from its own value, and the other members do not interfere. An
    absent member keeps its old value. *)
Theorem reflect_struct_members fs decl vis v vis' v' n ft :
  wf_ty (TStruct fs decl) = true -> wt (TStruct fs decl) v = true ->
  reflect (TStruct fs decl) (vis, v) = (Ok tt, (vis', v')) ->
  n ∈ decl -> fs !! field_index n fs = Some (n, ft) ->
  match FindMember n (m vis) with
  | Some c => decode ft c (field_get (field_index n fs) v) = Ok (field_get (field_index n fs) v')
  | None => field_get (field_index n fs) v' = field_get (field_index n fs) v
  end.
Proof.
  intros Hwf Hv Hr Hn Hi. apply reflect_ok_decode in Hr as [Hd _].
  exact (decode_struct_member fs decl (m vis) v v' n ft Hwf Hv Hd Hn Hi).
Qed.

Lemma reflect_struct_members_witness :
  let fs := [("id", TPrim (PInt ULong)); ("name", TPrim PString)] in
  let j := JObject [("name", JString "hello"); ("id", JInt 10)] in
  wf_ty (TStruct fs ["id"; "name"]) = true /\
  wt (TStruct fs ["id"; "name"]) (VStruct [VInt 0; VString ""]) = true /\
  reflect (TStruct fs ["id"; "name"]) (mkReader j [], VStruct [VInt 0; VString ""]) =
    (Ok tt, (mkReader j [], VStruct [VInt 10; VString "hello"])) /\
  ("name" ∈ ["id"; "name"]) /\ fs !! field_index "name" fs = Some ("name", TPrim PString) /\
  decode (TPrim PString) (JString "hello") (VString "") = Ok (VString "hello").
Proof.
  assert (Hn : "name" ∈ ["id"; "name"]) by (apply (bool_decide_unpack _); vm_compute; reflexivity).
  assert (Hr : reflect (TStruct [("id", TPrim (PInt ULong)); ("name", TPrim PString)] ["id"; "name"])
                 (mkReader (JObject [("name", JString "hello"); ("id", JInt 10)]) [],
                  VStruct [VInt 0; VString ""]) =
               (Ok tt, (mkReader (JObject [("name", JString "hello"); ("id", JInt 10)]) [],
                        VStruct [VInt 10; VString "hello"]))) by reflexivity.
  do 2 (split; [reflexivity|]). split; [exact Hr|]. split; [exact Hn|]. split; [reflexivity|].
  exact (reflect_struct_members [("id", TPrim (PInt ULong)); ("name", TPrim PString)]
           ["id"; "name"] _ (VStruct [VInt 0; VString ""]) _ _ "name" (TPrim PString)
           eq_refl eq_refl Hr Hn eq_refl).
Defined.

(** C16. A node of the wrong shape is rejected before anything is read.
    [iterArray] tests [IsArray] (line 137) before [GetArray], and the
    reader's [reflectMemberStart] tests [IsObject] (line 115) before any
    [FindMember]; rapidjson asserts both preconditions. The exception
    leaves the reader and the object as they were. *)
Theorem shape_mismatch_no_effect t fs decl j p v :
  (IsArray j = false ->
   decode (TVec t) j v = Throw (InvalidArgument "array") /\
   reflect (TVec t) (mkReader j p, v) = (Throw (InvalidArgument "array"), (mkReader j p, v))) /\
  (IsObject j = false ->
   decode (TStruct fs decl) j v = Throw (InvalidArgument "object") /\
   reflect (TStruct fs decl) (mkReader j p, v) =
     (Throw (InvalidArgument "object"), (mkReader j p, v))).
Proof.
  split; intros H; (split; [simpl; by rewrite H|]).
  - cbn [reflect reflect_vector JsonReader_Visitor]. unfold reader_vector, iterArray.
    rd_run. by rewrite H.
  - rewrite reflect_struct_eq. cbn [reflectMemberStart JsonReader_Visitor].
    unfold reader_member_start. rd_run. by rewrite H.
Qed.

Lemma shape_mismatch_no_effect_witness :
  (decode (TVec (TPrim PString)) (JInt 1) (VVec []) = Throw (InvalidArgument "array") /\
   reflect (TVec (TPrim PString)) (mkReader (JInt 1) [], VVec []) =
     (Throw (InvalidArgument "array"), (mkReader (JInt 1) [], VVec []))) /\
  (decode (TStruct [] []) (JArray []) (VStruct []) = Throw (InvalidArgument "object") /\
   reflect (TStruct [] []) (mkReader (JArray []) [], VStruct []) =
     (Throw (InvalidArgument "object"), (mkReader (JArray []) [], VStruct []))).
Proof.
  split.
  - apply (proj1 (shape_mismatch_no_effect (TPrim PString) [] [] (JInt 1) [] (VVec []))).
    reflexivity.
  - apply (proj2 (shape_mismatch_no_effect (TPrim PString) [] [] (JArray []) [] (VStruct []))).
    reflexivity.
Defined.

(** C18. Every entry of an array is read. When reading an array into a
    vector returns normally, the loop of [iterArray] (line 139) has
    reached every entry, in order: the vector holds its old elements
    followed by one new element per entry, each the entry read into a
    value-initialised element. *)
Theorem reflect_vector_reads_every_entry t j p (l : list value) r' v' :
  reflect (TVec t) (mkReader j p, VVec l) = (Ok tt, (r', v')) ->
  exists xs, v' = VVec (l ++ xs) /\
             Forall2 (fun e x => decode t e (value_init t) = Ok x) (GetArray j) xs.
Proof.
  intros Hr. apply reflect_ok_decode in Hr as [Hd _]. simpl in Hd.
  destruct (IsArray j); [|discriminate]. by apply foldM_decode_elems.
Qed.

Lemma reflect_vector_reads_every_entry_witness :
  reflect (TVec (TPrim (PInt Int))) (mkReader (JArray [JInt 1; JInt 2]) [], VVec [VInt 0]) =
    (Ok tt, (mkReader (JArray [JInt 1; JInt 2]) [], VVec [VInt 0; VInt 1; VInt 2])) /\
  exists xs, VVec [VInt 0; VInt 1; VInt 2] = VVec ([VInt 0] ++ xs) /\
             Forall2 (fun e x => decode (TPrim (PInt Int)) e (value_init (TPrim (PInt Int))) = Ok x)
               (GetArray (JArray [JInt 1; JInt 2])) xs.
Proof.
  assert (Hr : reflect (TVec (TPrim (PInt Int)))
                 (mkReader (JArray [JInt 1; JInt 2]) [], VVec [VInt 0]) =
               (Ok tt, (mkReader (JArray [JInt 1; JInt 2]) [], VVec [VInt 0; VInt 1; VInt 2])))
    by reflexivity.
  split; [exact Hr|]. exact (reflect_vector_reads_every_entry _ _ _ _ _ _ Hr).
Defined.

(** C19. Reading twice is reading once, for types without vectors.
    Reading the same document a second time into the object the first
    read produced succeeds and changes nothing: every member read from
    the document is read again to the same value, and absent members
    are left alone both times. With vectors this fails, since the
    reader appends to them: [RoundTrip.reflect_reads_merge] gives the
    result in general. *)
Theorem decode_idempotent t j v v' :
  wf_ty t = true -> novec t = true -> wt t v = true ->
  decode t j v = Ok v' -> decode t j v' = Ok v'.
Proof.
  revert j v v'.
  induction t as [p|t IH|fs decl IH] using ty_nested_ind; intros j v v' Hwf Hnv Hv Hd.
  - simpl in *. unfold decode_prim in *.
    destruct (read_rule p) as [[[what is_kind] get_value]|]; [|by injection Hd as <-].
    destruct (is_kind j); [|discriminate]. by injection Hd as <-.
  - discriminate.
  - pose proof Hd as Hd'. simpl in Hd'. destruct (IsObject j) eqn:Ho; [|discriminate].
    simpl. rewrite Ho. apply foldM_fixpoint. intros n Hn.
    pose proof Hwf as (_ & _ & Hdecl & _ & Hwfs)%wf_ty_struct.
    destruct (field_index_lookup n fs (proj1 (Forall_forall _ decl) Hdecl n Hn)) as [ft Hft].
    pose proof (decode_struct_member fs decl j v v' n ft Hwf Hv Hd Hn Hft) as Hm.
    unfold decode_member. rewrite nth_field_map, Hft.
    destruct (FindMember n j) as [c|]; [|done].
    destruct (tyval_all_struct_inv _ _ _ _ _ Hv) as (vs & -> & _).
    pose proof (Forall_lookup_1 _ _ _ _ IH Hft c _ _ (Forall_lookup_1 _ _ _ _ Hwfs Hft)
                  (Forall_lookup_1 _ _ _ _ (novec_struct _ _ Hnv) Hft)
                  (tyval_all_field _ _ fs decl vs _ n ft Hv Hft) Hm) as Hc.
    simpl in Hc. by rewrite Hc, field_set_get.
Qed.

Lemma decode_idempotent_witness :
  let t := TStruct [("a", TPrim (PInt Int)); ("b", TPrim PString)] ["a"; "b"] in
  wf_ty t = true /\ novec t = true /\ wt t (VStruct [VInt 0; VString "keep"]) = true /\
  decode t (JObject [("a", JInt 5)]) (VStruct [VInt 0; VString "keep"]) =
    Ok (VStruct [VInt 5; VString "keep"]) /\
  decode t (JObject [("a", JInt 5)]) (VStruct [VInt 5; VString "keep"]) =
    Ok (VStruct [VInt 5; VString "keep"]).
Proof.
  do 4 (split; [reflexivity|]).
  apply (decode_idempotent (TStruct [("a", TPrim (PInt Int)); ("b", TPrim PString)] ["a"; "b"])
           _ (VStruct [VInt 0; VString "keep"])); reflexivity.
Defined.

(** ** The first failure *)

(** C21. The first failing member in declaration order decides. When
    reading an object into a struct throws [e], the members declared in
    [REFLECT_STRUCT] split as [pre ++ n :: post]. The members of [pre]
    were read normally, one after the other, into the object [v1];
    reading member [n] into [v1] throws [e]; the members of [post] are
    never looked at. The object left behind is [v1] with field [n]
    replaced by whatever its own read left there (line 129 mutates
    [v.n] in place and nothing is rolled back). The order of the
    members in the document plays no part. *)
Theorem reader_first_failure fs decl ms p v e r' v' :
  reflect (TStruct fs decl) (mkReader (JObject ms) p, v) = (Throw e, (r', v')) ->
  exists pre n post v1 x,
    decl = pre ++ n :: post /\
    foldM (decode_member fs (map (fun '(_, ft) => decode ft) fs) (JObject ms)) pre v = Ok v1 /\
    decode_member fs (map (fun '(_, ft) => decode ft) fs) (JObject ms) n v1 = Throw e /\
    v' = field_set (field_index n fs) v1 x.
Proof.
  assert (IH : Forall (fun f => refines (reflect f.2) (rd_spec (decode f.2))) fs)
    by (apply Forall_forall; intros; apply reflect_refines_decode).
  intros H. rewrite reflect_struct_eq in H.
  cbn [reflectMemberStart reflectMemberEnd JsonReader_Visitor] in H.
  unfold reader_member_start in H. rd_run.
  revert H. case_eq (for_each (REFLECT_MEMBER fs (map (fun '(_, ft) => reflect ft) fs)) decl
                       (mkReader (JObject ms) p, v)).
  intros [[]|e'] s1 Hl; [discriminate|intros [= -> ->]].
  apply for_each_throw in Hl as (pre & n & post & [vis1 v1] & -> & Hpre & Hn).
  pose proof (refines_run _ _ _ _ _ (members_refine fs pre IH) Hpre) as Hf.
  unfold rd_spec in Hf. simpl in Hf.
  destruct (foldM _ pre v) as [v1'|e1] eqn:Hfold; [|discriminate]. destruct Hf as [_ [= -> <-]].
  pose proof (refines_run _ _ _ _ _ (REFLECT_MEMBER_refines fs _ _ n
                (member_traversals_refine fs n IH)) Hn) as Hm.
  unfold rd_spec in Hm. simpl in Hm.
  destruct (decode_member _ _ _ n v1) as [x1|e1] eqn:Hd; simpl in Hm;
    [by destruct Hm|injection Hm as ->].
  unfold REFLECT_MEMBER, zoom in Hn.
  destruct (reflectMember n _ _) as [r [w x]]. injection Hn as _ _ <-. eauto 10.
Qed.

(** Witness of C37: [c] comes first in the document and [b] is read
    before it in declaration order, so the exception is [b]'s; [a] keeps
    the value read before the failure and [c] its old value. *)
Lemma reader_first_failure_witness :
  let fs := [("a", TPrim (PInt Int)); ("b", TPrim PString); ("c", TPrim (PInt Int))] in
  let ms := [("c", JString "z"); ("b", JInt 7); ("a", JInt 5)] in
  reflect (TStruct fs ["a"; "b"; "c"]) (mkReader (JObject ms) [], VStruct [VInt 0; VString ""; VInt 0]) =
    (Throw (InvalidArgument "string"), (mkReader (JInt 7) ["b"], VStruct [VInt 5; VString ""; VInt 0])) /\
  exists pre n post v1 x,
    ["a"; "b"; "c"] = pre ++ n :: post /\
    foldM (decode_member fs (map (fun '(_, ft) => decode ft) fs) (JObject ms)) pre
      (VStruct [VInt 0; VString ""; VInt 0]) = Ok v1 /\
    decode_member fs (map (fun '(_, ft) => decode ft) fs) (JObject ms) n v1 =
      Throw (InvalidArgument "string") /\
    VStruct [VInt 5; VString ""; VInt 0] = field_set (field_index n fs) v1 x.
Proof.
  intros fs ms.
  assert (H : reflect (TStruct fs ["a"; "b"; "c"])
                (mkReader (JObject ms) [], VStruct [VInt 0; VString ""; VInt 0]) =
    (Throw (InvalidArgument "string"), (mkReader (JInt 7) ["b"], VStruct [VInt 5; VString ""; VInt 0])))
    by reflexivity.
  split; [exact H|]. exact (reader_first_failure _ _ _ _ _ _ _ _ H).
Defined.
