(* ===== verification/ReaderPath.v ===== *)
(** * The reader's path is diagnostic only

    [JsonReader::path_] (line 23) is pushed by [member] (line 148) and
    [iterArray] (line 138) and popped when they return normally
    (lines 145, 156). No reader overload reads it. [getPath()], which would
    render it for a message, is declared (line 32) but defined nowhere, and
    no throw site adds the path to its exception.

    [path_frame k] says this of an operation [k]. Its outcome, the node
    [m] it ends at, the object it leaves and the segments it adds to the
    path do not depend on the initial path. On normal return [k] restores
    [m] and adds nothing to the path. [reader_path_diagnostic] shows that
    every [reflect t] at the reader instance has this property.

    [route j q n] says that the path segments [q] lead from the document
    [j] to its node [n]. [frame_at R j v k] adds that after a throw the
    segments [k] pushed and the node [m] is left at satisfy [R], and that
    this node [rejects] the test whose message was thrown.
    [reader_throw_locates] draws the consequence for a throw: the raw
    pointer [m] that [member] and [iterArray] leave behind (lines
    151-154, 140-143) points at the offending node, and the path is the
    initial path followed by a route to it. *)

From stdpp Require Import base list strings.
From S2P Require Import Prelude CInt Json Types Visitor Reader.

Definition path_frame (k : RM unit) : Prop :=
  forall j v, exists o j' suf v',
    (o = Ok tt -> j' = j /\ suf = []) /\
    forall p, k (mkReader j p, v) = (o, (mkReader j' (p ++ suf), v')).

(** ** Routes in a document *)

(** [route j q n]: following the path segments [q] from [j] reaches [n].
    A name steps to the member [FindMember] finds (line 150). The segment
    "0" that [iterArray] pushes (line 138) steps to any element of an
    array: the same segment stands for every element. *)
Inductive route : json -> list string -> json -> Prop :=
  | route_here j : route j [] j
  | route_member j name c q n :
      FindMember name j = Some c -> route c q n -> route j (name :: q) n
  | route_elem j e q n : e ∈ GetArray j -> route e q n -> route j ("0" :: q) n.

(** [rejects what n]: [n] fails the test of the throw site whose
    message is [what]: [iterArray] (line 137), [reflectMemberStart]
    (line 115) or a primitive overload (lines 69-80). *)
Definition rejects (what : string) (n : json) : Prop :=
  (what = "array" /\ IsArray n = false) \/ (what = "object" /\ IsObject n = false) \/
  exists p is_kind get_value, read_rule p = Some (what, is_kind, get_value) /\ is_kind n = false.

(** The outcome [o] is normal, or an exception that node [n] caused. *)
Definition thrown_at (o : outcome unit) (n : json) : Prop :=
  match o with Ok _ => True | Throw (InvalidArgument what) => rejects what n end.

(** ** Frames *)

(** [frame_at R j v k]: [k], started at node [j] on object [v], ends in
    the same way from every initial path. On normal return the node is
    [j] again and the path is unchanged. After a throw the segments it
    added and the node it ends at satisfy [R], and that node caused the
    exception. *)
Definition frame_at (R : list string -> json -> Prop) (j : json) (v : value) (k : RM unit)
    : Prop :=
  exists o j' suf v',
    (o = Ok tt -> j' = j /\ suf = []) /\ (o = Ok tt \/ R suf j') /\ thrown_at o j' /\
    forall p, k (mkReader j p, v) = (o, (mkReader j' (p ++ suf), v')).

(** Every frame of [k] is a route from its start node. *)
Definition node_frame (k : RM unit) : Prop := forall j v, frame_at (route j) j v k.

Lemma node_frame_path k : node_frame k -> path_frame k.
Proof. intros H j v. destruct (H j v) as (o & j' & s & v' & Ho & _ & _ & E). eauto 10. Qed.

Section Frames.
Context (R : list string -> json -> Prop).

(** An operation that leaves the reader object as it is. *)
Lemma frame_fixed j v k o v' :
  (o = Ok tt \/ R [] j) -> thrown_at o j ->
  (forall p, k (mkReader j p, v) = (o, (mkReader j p, v'))) -> frame_at R j v k.
Proof.
  intros HR Ht E. exists o, j, [], v'. do 3 (split; [done|]).
  intros p. by rewrite app_nil_r.
Qed.

Lemma frame_seq j v k1 k2 :
  frame_at R j v k1 -> (forall v', frame_at R j v' k2) -> frame_at R j v (k1 ;; k2).
Proof.
  intros H1 H2. destruct H1 as (o1 & j1 & s1 & v1 & Ho1 & HR1 & Ht1 & E1).
  destruct o1 as [[]|e].
  - destruct (Ho1 eq_refl) as [-> ->].
    destruct (H2 v1) as (o2 & j2 & s2 & v2 & Ho2 & HR2 & Ht2 & E2).
    exists o2, j2, s2, v2. do 3 (split; [done|]).
    intros p. unfold bind. rewrite E1. simpl. by rewrite app_nil_r.
  - exists (Throw e), j1, s1, v1. split; [discriminate|do 2 (split; [done|])].
    intros p. unfold bind. by rewrite E1.
Qed.

Lemma frame_for_each {A} j (f : A -> RM unit) l v :
  (forall a v', a ∈ l -> frame_at R j v' (f a)) -> frame_at R j v (for_each f l).
Proof.
  revert v. induction l as [|a l IH]; intros v Hf; simpl.
  - by apply (frame_fixed j v _ (Ok tt) v); [left|..].
  - apply frame_seq; [apply Hf; apply elem_of_cons; auto|].
    intros v'. apply IH. intros b w Hb. apply Hf. apply elem_of_cons; auto.
Qed.

Lemma frame_zoom getf setf j v k : frame_at R j (getf v) k -> frame_at R j v (zoom getf setf k).
Proof.
  intros (o & j' & s & x & Ho & HR & Ht & E).
  exists o, j', s, (setf v x). do 3 (split; [done|]). intros p. unfold zoom. by rewrite E.
Qed.

(** [with_node] on a node [c]: restores [m] on normal return; after a
    throw it leaves [m] at the end of a route from [c]. *)
Lemma frame_with_node j v c fn :
  node_frame fn -> (forall s n, route c s n -> R s n) -> frame_at R j v (with_node c fn).
Proof.
  intros Hfn HR. destruct (Hfn c v) as (o & j' & s & v' & Ho & Hr & Ht & E).
  destruct o as [[]|e].
  - destruct (Ho eq_refl) as [-> ->]. exists (Ok tt), j, [], v'.
    do 3 (split; [by auto|]).
    intros p. unfold with_node. rd_run. rewrite E. simpl. by rewrite !app_nil_r.
  - destruct Hr as [|Hr]; [discriminate|].
    exists (Throw e), j', s, v'. split; [discriminate|split; [by right; apply HR|split; [done|]]].
    intros p. unfold with_node. rd_run. by rewrite E.
Qed.
End Frames.

Lemma nf_seq k1 k2 : node_frame k1 -> node_frame k2 -> node_frame (k1 ;; k2).
Proof. intros H1 H2 j v. by apply frame_seq. Qed.

Lemma nf_for_each {A} (f : A -> RM unit) l :
  (forall a, node_frame (f a)) -> node_frame (for_each f l).
Proof. intros Hf j v. apply frame_for_each. intros a v' _. apply Hf. Qed.

Lemma nf_zoom getf setf k : node_frame k -> node_frame (zoom getf setf k).
Proof. intros Hk j v. apply frame_zoom, Hk. Qed.

(** An operation that never throws and leaves the reader as it is. *)
Lemma nf_fixed k :
  (forall j v, exists v', forall p, k (mkReader j p, v) = (Ok tt, (mkReader j p, v'))) ->
  node_frame k.
Proof.
  intros Hk j v. destruct (Hk j v) as [v' E].
  by apply (frame_fixed _ j v k (Ok tt) v'); [left|..].
Qed.

(** A test of [m] that throws [what] when [m] fails it, followed on
    success by an operation on the node [m] points at. *)
Lemma nf_check (what : string) (test : json -> bool) (k : json -> RM unit) :
  (forall n, test n = false -> rejects what n) ->
  (forall j v, test j = true -> frame_at (route j) j v (k j)) ->
  node_frame (let* vis := on_vis get in
              if negb (test (m vis)) then throw (InvalidArgument what) else k (m vis)).
Proof.
  intros Hr Hk j v. destruct (test j) eqn:Ht.
  - destruct (Hk j v Ht) as (o & j' & s & v' & Ho & HR & Ht' & E).
    exists o, j', s, v'. do 3 (split; [done|]). intros p. rd_run. rewrite Ht. apply E.
  - apply (frame_fixed _ j v _ (Throw (InvalidArgument what)) v); [right; constructor|by apply Hr|].
    intros p. rd_run. by rewrite Ht.
Qed.

Lemma nf_ret : node_frame (ret tt).
Proof. apply nf_fixed. intros j v. by exists v. Qed.

Lemma nf_modify_value f : node_frame (modify (fun '(w, v) => (w, f v))).
Proof. apply nf_fixed. intros j v. by exists (f v). Qed.

Lemma nf_back k : node_frame k -> node_frame (back k).
Proof.
  intros Hk j v. destruct (nf_zoom (elem_get (pred (length (as_list v))))
                            (elem_set (pred (length (as_list v)))) k Hk j v)
    as (o & j' & s & x & Ho & HR & Ht & E).
  exists o, j', s, x. do 3 (split; [done|]). intros p. apply E.
Qed.

(** [member] pushes the name, and pops it only on normal return. After
    a throw the path continues with the name, into the member's value. *)
Lemma nf_member name fn : node_frame fn -> node_frame (member name fn).
Proof.
  intros Hfn j v. unfold member.
  destruct (FindMember name j) as [c|] eqn:Hf.
  - destruct (frame_with_node (fun s n => route j (name :: s) n) j v c fn Hfn
                (fun s n Hr => route_member _ _ _ _ _ Hf Hr))
      as (o & j' & s & v' & Ho & HR & Ht & E).
    destruct o as [[]|e].
    + destruct (Ho eq_refl) as [-> ->].
      apply (frame_fixed _ j v _ (Ok tt) v'); [by left|done|].
      intros p. rd_run. rewrite Hf, E. simpl. by rewrite !app_nil_r, removelast_snoc.
    + destruct HR as [|HR]; [discriminate|].
      exists (Throw e), j', (name :: s), v'. split; [discriminate|do 2 (split; [by auto|])].
      intros p. rd_run. rewrite Hf, E. by rewrite <- app_assoc.
  - apply (frame_fixed _ j v _ (Ok tt) v); [by left|done|].
    intros p. rd_run. rewrite Hf. simpl. by rewrite removelast_snoc.
Qed.

(** [iterArray] pushes the constant segment "0" for the whole loop. *)
Lemma nf_iterArray fn : node_frame fn -> node_frame (iterArray fn).
Proof.
  intros Hfn. unfold iterArray.
  apply (nf_check "array" IsArray (fun n => on_vis (push_path "0") ;;
           for_each (fun entry => with_node entry fn) (GetArray n) ;; on_vis pop_path));
    [intros n Hn; left; done|].
  intros j v _.
  destruct (frame_for_each (fun s n => route j ("0" :: s) n) j _ (GetArray j) v
              (fun e v' He => frame_with_node _ j v' e fn Hfn
                                (fun s n Hr => route_elem _ _ _ _ He Hr)))
    as (o & j' & s & v' & Ho & HR & Ht & E).
  destruct o as [[]|e].
  - destruct (Ho eq_refl) as [-> ->].
    apply (frame_fixed _ j v _ (Ok tt) v'); [by left|done|].
    intros p. rd_run. rewrite E. simpl. by rewrite !app_nil_r, removelast_snoc.
  - destruct HR as [|HR]; [discriminate|].
    exists (Throw e), j', ("0" :: s), v'. split; [discriminate|do 2 (split; [by auto|])].
    intros p. rd_run. rewrite E. by rewrite <- app_assoc.
Qed.

Lemma nf_reader_prim p : node_frame (reader_prim p).
Proof.
  unfold reader_prim.
  destruct (read_rule p) as [[[what is_kind] get_value]|] eqn:Hr; [|apply nf_ret].
  apply (nf_check what is_kind (fun n => modify (fun '(w, _) => (w, get_value n))));
    [|intros j v _; apply nf_modify_value].
  intros n Hn. right; right. eauto.
Qed.

Lemma nf_reader_member_start : node_frame reader_member_start.
Proof. apply (nf_check "object" IsObject (fun _ => ret tt)); [intros n Hn; right; left; done|intros; apply nf_ret]. Qed.

Lemma nf_nth_field (fs : list (string * ty)) i :
  Forall (fun f => node_frame (reflect f.2)) fs ->
  node_frame (nth i (map (fun '(_, ft) => reflect ft) fs) (ret tt)).
Proof.
  intros Hall. rewrite nth_field_map.
  destruct (fs !! i) as [[n ft]|] eqn:Hi; [|apply nf_ret].
  exact (Forall_lookup_1 _ _ _ _ Hall Hi).
Qed.

(** Every [reflect t] at the reader instance is a frame. *)
Lemma reflect_node_frame t : node_frame (reflect t).
Proof.
  induction t as [p|t IH|fs decl IH] using ty_nested_ind.
  - apply nf_reader_prim.
  - apply nf_iterArray, nf_seq; [apply nf_modify_value|apply nf_back, IH].
  - rewrite reflect_struct_eq.
    apply nf_seq; [apply nf_reader_member_start|].
    apply nf_seq; [|apply nf_ret].
    apply nf_for_each. intros n. apply nf_zoom, nf_member, nf_nth_field, IH.
Qed.

(** ** The path and the node pointer at the reader instance *)

(** C8. The path is diagnostic only. For every type [t], node [j] and
    object [v], reading [j] into [v] has one outcome, one final node, one
    final object and one list of added path segments, whatever the path
    was when reading started. On normal return the node is [j] again and
    the path is as it was. After a throw, the path is the initial path
    followed by the segments of the members and arrays that were being
    read. *)
Theorem reader_path_diagnostic t : path_frame (reflect t).
Proof. apply node_frame_path, reflect_node_frame. Qed.

(** What a throw leaves: the path is the initial path followed by a
    route from the document to the node [m] points at, and that node
    caused the exception. *)
Lemma reflect_throw_frame t j p v e r' v' :
  reflect t (mkReader j p, v) = (Throw e, (r', v')) ->
  exists suf, path_ r' = p ++ suf /\ route j suf (m r') /\ thrown_at (Throw e) (m r').
Proof.
  intros H. destruct (reflect_node_frame t j v) as (o & j' & s & w & _ & HR & Ht & E).
  rewrite E in H. injection H as -> <- _. destruct HR as [|HR]; [discriminate|]. eauto.
Qed.

(** C20. The stale path locates the failure. After [reflect] throws
    [std::invalid_argument(what)], [path_] is the initial path followed
    by segments that lead from the document [j] to the node [m] is left
    at: member names, and "0" for an element of an array. That node is
    the one whose test failed: it is not an array for "array", not an
    object for "object", and fails the [Is*] test of the overload whose
    message is [what] otherwise. Since "0" stands for every element, the
    path does not say which element failed. *)
Theorem reader_throw_locates t j p v what r' v' :
  reflect t (mkReader j p, v) = (Throw (InvalidArgument what), (r', v')) ->
  exists suf, path_ r' = p ++ suf /\ route j suf (m r') /\ rejects what (m r').
Proof. apply reflect_throw_frame. Qed.

(** Witness of C36: the second element of the [items] array of a
    document of [Items]-like shape has a number for [hello]; the path is
    ["items"; "0"; "hello"] although the element is the second. *)
Lemma reader_throw_locates_witness :
  let t := TStruct [("items", TVec (TStruct [("hello", TPrim PString)] ["hello"]))] ["items"] in
  let j := JObject [("items", JArray [JObject [("hello", JString "one")];
                                      JObject [("hello", JInt 2)]])] in
  let v' := VStruct [VVec [VStruct [VString "one"]; VStruct [VString ""]]] in
  reflect t (mkReader j [], VStruct [VVec []]) =
    (Throw (InvalidArgument "string"), (mkReader (JInt 2) ["items"; "0"; "hello"], v')) /\
  exists suf, ["items"; "0"; "hello"] = [] ++ suf /\ route j suf (JInt 2) /\
              rejects "string" (JInt 2).
Proof.
  intros t j v'.
  assert (H : reflect t (mkReader j [], VStruct [VVec []]) =
    (Throw (InvalidArgument "string"), (mkReader (JInt 2) ["items"; "0"; "hello"], v')))
    by reflexivity.
  split; [exact H|]. exact (reader_throw_locates _ _ _ _ _ _ _ H).
Defined.
