(* ===== verification/MemberOrder.v ===== *)
(** * Reading does not depend on the order of object members

    The reader finds a struct's members with [FindMember] (line 150), a
    scan for the name. The spec (§3) says that reader lookup "is by name
    and is order-independent". [jequiv j1 j2] says the two documents are
    the same tree up to the order of the members of each object, member
    names being unique in every object. [decode_member_order] shows that
    such documents are read the same way: same exception or same object.

    With a repeated member name the first member wins ([FindMember] is
    a first-match scan, [Json.find_in]), so order does matter there. *)

From stdpp Require Import base list strings.
From S2P Require Import Prelude CInt Json Types Visitor Reader.

Local Set Warnings "-register-all".

Inductive jequiv : json -> json -> Prop :=
  | jequiv_scalar j : IsArray j = false -> IsObject j = false -> jequiv j j
  | jequiv_array l1 l2 : Forall2 jequiv l1 l2 -> jequiv (JArray l1) (JArray l2)
  | jequiv_object ms1 ms2 ms3 :
      NoDup (map fst ms1) ->
      Forall2 (fun a b => a.1 = b.1 /\ jequiv a.2 b.2) ms1 ms2 ->
      ms2 ≡ₚ ms3 ->
      jequiv (JObject ms1) (JObject ms3).

(** ** Member lookup in equivalent objects *)

Lemma Forall2_keys (ms1 ms2 : list (string * json)) :
  Forall2 (fun a b => a.1 = b.1 /\ jequiv a.2 b.2) ms1 ms2 -> map fst ms1 = map fst ms2.
Proof. induction 1 as [|a b l1 l2 [Hk _] _ IH]; simpl; congruence. Qed.

Lemma find_in_Forall2 name (ms1 ms2 : list (string * json)) :
  Forall2 (fun a b => a.1 = b.1 /\ jequiv a.2 b.2) ms1 ms2 ->
  option_Forall2 jequiv (find_in name ms1) (find_in name ms2).
Proof.
  induction 1 as [|[k1 x1] [k2 x2] l1 l2 [Hk Hx] _ IH]; simpl in *; [constructor|].
  subst. case_decide; [by constructor|done].
Qed.

Lemma FindMember_jequiv name ms1 ms2 ms3 :
  NoDup (map fst ms1) ->
  Forall2 (fun a b => a.1 = b.1 /\ jequiv a.2 b.2) ms1 ms2 -> ms2 ≡ₚ ms3 ->
  option_Forall2 jequiv (FindMember name (JObject ms1)) (FindMember name (JObject ms3)).
Proof.
  intros Hnd Hf Hp. rewrite !FindMember_object.
  rewrite <- (find_in_perm name ms2 ms3); [by apply find_in_Forall2| |done].
  by rewrite <- (Forall2_keys _ _ Hf).
Qed.

(** One declared member reads the same from equivalent objects. *)
Lemma decode_member_jequiv fs n ms1 ms2 ms3 x :
  Forall (fun f => forall j1 j2 v, jequiv j1 j2 -> decode f.2 j1 v = decode f.2 j2 v) fs ->
  NoDup (map fst ms1) ->
  Forall2 (fun a b => a.1 = b.1 /\ jequiv a.2 b.2) ms1 ms2 -> ms2 ≡ₚ ms3 ->
  decode_member fs (map (fun '(_, ft) => decode ft) fs) (JObject ms1) n x =
  decode_member fs (map (fun '(_, ft) => decode ft) fs) (JObject ms3) n x.
Proof.
  intros IH Hnd Hf Hp. unfold decode_member.
  pose proof (FindMember_jequiv n ms1 ms2 ms3 Hnd Hf Hp) as Hc.
  destruct (FindMember n (JObject ms1)) as [c1|], (FindMember n (JObject ms3)) as [c3|];
    inversion Hc as [? ? Hc13|]; subst; [|done].
  rewrite !nth_field_map. destruct (fs !! field_index n fs) as [[n' ft]|] eqn:Hi; [|done].
  by rewrite (Forall_lookup_1 _ _ _ _ IH Hi c1 c3 _ Hc13).
Qed.

(** C9. Member order does not matter to reading. Two documents that
    differ only in the order of the members of their objects (member
    names being unique) are read into the same object, or fail with the
    same exception, for every type and every initial object. *)
Theorem decode_member_order t j1 j2 v :
  jequiv j1 j2 -> decode t j1 v = decode t j2 v.
Proof.
  revert j1 j2 v.
  induction t as [p|t IH|fs decl IH] using ty_nested_ind; intros j1 j2 v Hj;
    destruct Hj as [j Ha Ho|l1 l2 Hl|ms1 ms2 ms3 Hnd Hf Hp]; try reflexivity.
  - destruct p as [|[]| | |]; reflexivity.
  - destruct p as [|[]| | |]; reflexivity.
  - simpl. apply (foldM_Forall2 jequiv); [|done].
    intros a a' x Haa. unfold decode_elem. by rewrite (IH a a' _ Haa).
  - simpl. apply foldM_ext. intros n x _. by apply decode_member_jequiv with ms2.
Qed.

Lemma decode_member_order_witness :
  let t := TStruct [("a", TPrim (PInt Int)); ("b", TPrim PString)] ["a"; "b"] in
  let j1 := JObject [("a", JInt 1); ("b", JString "x")] in
  let j2 := JObject [("b", JString "x"); ("a", JInt 1)] in
  jequiv j1 j2 /\
  decode t j1 (VStruct [VInt 0; VString ""]) = decode t j2 (VStruct [VInt 0; VString ""]).
Proof.
  assert (H : jequiv (JObject [("a", JInt 1); ("b", JString "x")])
                     (JObject [("b", JString "x"); ("a", JInt 1)])).
  { apply (jequiv_object _ [("a", JInt 1); ("b", JString "x")]).
    - apply (bool_decide_unpack _). vm_compute. reflexivity.
    - repeat constructor.
    - apply perm_swap. }
  split; [exact H|]. apply decode_member_order. exact H.
Defined.
