(* ===== verification/Writer.v ===== *)
(** * The writing direction: [JsonWriter]

    [JsonWriter] (lines 35-52) wraps a [rapidjson::Writer]. Its methods
    (lines 59-67) forward one call each to the wrapped writer. The model
    of the wrapped writer is the list [out] of calls it has received. The
    writer overloads (lines 82-95, 108-112, 120, 124, 131-134) form the
    instance [JsonWriter_Visitor].

    [encode t v] is the list of calls that writing [v] makes.
    [writer_reflect_eq] shows that [reflect] at this instance appends
    exactly [encode t v], never throws, and leaves the object unchanged.
    [encode_args_fit] shows that every integer call receives a value of
    its parameter type. *)

From stdpp Require Import base list strings.
From Stdlib Require Import ZArith Floats.
From S2P Require Import Prelude CInt Json Types Visitor.

Record JsonWriter := mkWriter { out : list event }.

(** [JsonWriter(W *m) : m(m) {}] (line 42): the visitor wraps a
    [rapidjson::Writer] that has already received the calls [calls]. *)
Definition JsonWriter_ctor (calls : list event) : JsonWriter := mkWriter calls.

Abbreviation WM := (M (JsonWriter * value)).

(** One call on the wrapped [rapidjson::Writer]. *)
Definition emit (e : event) : M JsonWriter unit := modify (fun w => mkWriter (out w ++ [e])).

(** The methods of [JsonWriter] (lines 59-67). *)
Definition startArray : M JsonWriter unit := emit EvStartArray.
Definition endArray : M JsonWriter unit := emit EvEndArray.
Definition startObject : M JsonWriter unit := emit EvStartObject.
Definition endObject : M JsonWriter unit := emit EvEndObject.
Definition key (name : string) : M JsonWriter unit := emit (EvKey name).
Definition null_ : M JsonWriter unit := emit EvNull.
Definition int64 (z : Z) : M JsonWriter unit := emit (EvInt64 z).
(** [string(const char *s)]: rapidjson measures [s] with [strlen], so
    the string ends at its first NUL byte. No [reflect] overload calls it. *)
Definition string_c (s : string) : M JsonWriter unit := emit (EvString (cstr s)).
(** [string(const char *s, size_t len)]: the length is passed, so the
    whole string is written, NUL bytes included. *)
Definition string_len (s : string) : M JsonWriter unit := emit (EvString s).

(** ** The writer's primitive overloads (lines 82-95)

    The call each overload makes: [Int] for the types promoted to [int],
    [Uint64] for [unsigned], [unsigned long] and [unsigned long long],
    [Int64] for [long] and [long long]. *)
Definition write_event (p : prim) (v : value) : event :=
  match p with
  | PBool => EvBool (as_bool v)
  | PInt UChar => EvInt (as_int v)
  | PInt Short => EvInt (as_int v)
  | PInt UShort => EvInt (as_int v)
  | PInt Int => EvInt (as_int v)
  | PInt UInt => EvUint64 (as_int v)
  | PInt Long => EvInt64 (as_int v)
  | PInt ULong => EvUint64 (as_int v)
  | PInt LongLong => EvInt64 (as_int v)
  | PInt ULongLong => EvUint64 (as_int v)
  | PDouble => EvDouble (as_double v)
  | PString => EvString (as_string v)
  | PNull => EvNull
  end.

Definition writer_prim (p : prim) : WM unit :=
  let* '(_, v) := get in
  match p with
  | PString => on_vis (string_len (as_string v))
  | _ => on_vis (emit (write_event p v))
  end.

(** [reflect(JsonWriter&, std::vector<T>&)] (lines 107-112): the
    range-for visits every element by reference. *)
Definition writer_vector (t : ty) (elem : WM unit) : WM unit :=
  on_vis startArray ;;
  let* '(_, v) := get in
  for_each (fun i => zoom (elem_get i) (elem_set i) elem) (seq 0 (length (as_list v))) ;;
  on_vis endArray.

(** [reflectMember(JsonWriter&, name, v)] (lines 130-134). *)
Definition writer_member (name : string) (fn : WM unit) : WM unit :=
  on_vis (key name) ;; fn.

#[export] Instance JsonWriter_Visitor : Visitor JsonWriter := {|
  reflect_prim := writer_prim;
  reflect_vector := writer_vector;
  reflectMemberStart := on_vis startObject;
  reflectMemberEnd := on_vis endObject;
  reflectMember := writer_member
|}.

(** ** The specification of writing *)

Fixpoint encode (t : ty) (v : value) : list event :=
  match t with
  | TPrim p => [write_event p v]
  | TVec t' => [EvStartArray] ++ concat (map (encode t') (as_list v)) ++ [EvEndArray]
  | TStruct fs decl =>
      let es := map (fun '(_, ft) => encode ft) fs in
      [EvStartObject] ++
      concat (map (fun n => let i := field_index n fs in
                            EvKey n :: nth i es (fun _ => []) (field_get i v)) decl) ++
      [EvEndObject]
  end.

(** ** Writing implements [encode] *)

(** [k] never throws, leaves the object unchanged and appends [f x]. *)
Definition appends (k : WM unit) (f : value -> list event) : Prop :=
  forall w x, k (w, x) = (Ok tt, (mkWriter (out w ++ f x), x)).

Ltac wr_run := cbv [bind ret get gets modify on_vis zoom emit appends] in *; simpl in *.

Lemma appends_seq k1 k2 f1 f2 :
  appends k1 f1 -> appends k2 f2 -> appends (k1 ;; k2) (fun x => f1 x ++ f2 x).
Proof. intros H1 H2 w x. wr_run. rewrite H1, H2. simpl. by rewrite app_assoc. Qed.

Lemma appends_emit e : appends (on_vis (emit e)) (fun _ => [e]).
Proof. by intros w x. Qed.

Lemma appends_for_each {A} (g : A -> WM unit) (f : A -> value -> list event) l :
  (forall a, appends (g a) (f a)) ->
  appends (for_each g l) (fun x => concat (map (fun a => f a x) l)).
Proof.
  intros Hg. induction l as [|a l IH]; intros w x; simpl.
  - by rewrite app_nil_r; destruct w.
  - apply (appends_seq _ _ _ _ (Hg a) IH).
Qed.

Lemma appends_zoom_elem i k f :
  appends k f -> appends (zoom (elem_get i) (elem_set i) k) (fun x => f (elem_get i x)).
Proof. intros Hk w x. wr_run. rewrite Hk. by rewrite elem_set_get. Qed.

Lemma appends_zoom_field i k f :
  appends k f -> appends (zoom (field_get i) (field_set i) k) (fun x => f (field_get i x)).
Proof. intros Hk w x. wr_run. rewrite Hk. by rewrite field_set_get. Qed.

Lemma appends_writer_vector t elem f :
  appends elem f ->
  appends (writer_vector t elem)
    (fun x => [EvStartArray] ++ concat (map f (as_list x)) ++ [EvEndArray]).
Proof.
  intros Hel w x. unfold writer_vector.
  pose proof (appends_for_each _ _ (seq 0 (length (as_list x)))
                (fun i => appends_zoom_elem i _ _ Hel)) as Hl.
  wr_run. rewrite Hl. simpl. rewrite <- !app_assoc.
  pose proof (map_seq_lookup f [] (as_list x)) as E. simpl in E.
  unfold elem_get. by rewrite E.
Qed.

Lemma appends_ext k f g : (forall x, f x = g x) -> appends k f -> appends k g.
Proof. intros Hfg Hk w x. by rewrite <- Hfg. Qed.

Lemma appends_ret : appends (ret tt) (fun _ => []).
Proof. intros [o] x. by rewrite app_nil_r. Qed.

Lemma appends_REFLECT_MEMBER fs n :
  Forall (fun f => appends (reflect f.2) (encode f.2)) fs ->
  appends (REFLECT_MEMBER fs (map (fun '(_, ft) => reflect ft) fs) n)
    (fun x => let i := field_index n fs in
              EvKey n :: nth i (map (fun '(_, ft) => encode ft) fs) (fun _ => []) (field_get i x)).
Proof.
  intros Hall. unfold REFLECT_MEMBER. set (i := field_index n fs).
  apply (appends_zoom_field i _
           (fun y => [EvKey n] ++ nth i (map (fun '(_, ft) => encode ft) fs) (fun _ => []) y)).
  cbn [reflectMember JsonWriter_Visitor]. unfold writer_member.
  apply appends_seq; [apply appends_emit|].
  apply (nth_field_rel appends); [apply appends_ret|done].
Qed.

Lemma writer_appends t : appends (reflect t) (encode t).
Proof.
  induction t as [p|t IH|fs decl IH] using ty_nested_ind.
  - intros w x. destruct p as [|[]| | |]; reflexivity.
  - by apply appends_writer_vector.
  - rewrite reflect_struct_eq.
    eapply appends_ext;
      [|apply (appends_seq _ _ (fun _ => [EvStartObject])), appends_seq;
        [apply appends_emit|apply appends_for_each; intros n;
                             apply appends_REFLECT_MEMBER, IH|apply appends_emit]].
    intros x. reflexivity.
Qed.

(** The writer's overloads discharge the interface [VisitorKeepsWt]:
    they only read the object, and the vector overload reaches the
    elements through references. *)
#[export] Instance JsonWriter_keeps_wt : VisitorKeepsWt JsonWriter.
Proof.
  split.
  - intros p. unfold reflect_prim; simpl. unfold writer_prim. keeps_wt_split.
  - intros t k Hk. unfold reflect_vector; simpl. unfold writer_vector. keeps_wt_split.
    by apply keeps_wt_zoom_elem.
  - intros fs decl. apply keeps_wt_on_vis.
  - intros fs decl. apply keeps_wt_on_vis.
  - intros t n k Hk. unfold reflectMember; simpl. unfold writer_member. keeps_wt_split.
Qed.

(** C3. Writing never throws and never changes the object: [reflect] at
    the writer instance appends exactly [encode t v] to the calls already
    made. *)
Theorem writer_reflect_eq t w v :
  reflect t (w, v) = (Ok tt, (mkWriter (out w ++ encode t v), v)).
Proof. apply writer_appends. Qed.



(** ** The arguments of the integer calls *)

(** The parameter types of the rapidjson calls the writer overloads
    make: [Writer::Int(int)], [Writer::Int64(int64_t)] and
    [Writer::Uint64(uint64_t)]. An argument passes unchanged exactly when
    it is a value of the parameter type. *)
Definition arg_fits (e : event) : bool :=
  match e with
  | EvInt z => in_range Int z
  | EvInt64 z => in_range LongLong z
  | EvUint64 z => in_range ULongLong z
  | _ => true
  end.

(** C22. Writing never narrows an integer. For every well-typed object,
    each [Int], [Int64] and [Uint64] call the writer makes receives a
    value of the call's parameter type: the implicit conversions of
    lines 83-91 ([uint8_t], [short] and [unsigned short] to [int],
    [unsigned] and [unsigned long] to [uint64_t], [long] to [int64_t])
    keep every value, so the number printed is the field's value. *)
Theorem encode_args_fit t v :
  wt t v = true -> Forall (fun e => arg_fits e = true) (encode t v).
Proof.
  revert v. induction t as [p|t IH|fs decl IH] using ty_nested_ind; intros v Hv.
  - unfold wt in Hv. simpl in Hv.
    destruct p as [|[]| | |], v; simpl in *; try discriminate;
      repeat constructor; simpl; try reflexivity; range_lia.
  - destruct (tyval_all_vec_inv _ _ _ _ Hv) as (l & -> & _ & Hl). simpl.
    constructor; [done|]. apply Forall_app; split; [|repeat constructor].
    apply Forall_concat_map. intros x Hx. apply IH. exact (proj1 (Forall_forall _ l) Hl x Hx).
  - destruct (tyval_all_struct_inv _ _ _ _ _ Hv) as (vs & -> & _). simpl.
    constructor; [done|]. apply Forall_app; split; [|repeat constructor].
    apply Forall_concat_map. intros n _. constructor; [done|].
    rewrite nth_field_map. destruct (fs !! field_index n fs) as [[n' ft]|] eqn:Hi; [|constructor].
    exact (Forall_lookup_1 _ _ _ _ IH Hi _ (tyval_all_field _ _ fs decl vs _ n' ft Hv Hi)).
Qed.

Lemma encode_args_fit_witness :
  let t := TStruct [("b", TPrim (PInt UChar)); ("u", TPrim (PInt UInt)); ("l", TPrim (PInt Long))]
                   ["b"; "u"; "l"] in
  let v := VStruct [VInt 255; VInt 4294967295; VInt (-9223372036854775808)] in
  wt t v = true /\ Forall (fun e => arg_fits e = true) (encode t v).
Proof. split; [reflexivity|]. apply encode_args_fit. reflexivity. Defined.
