(* ===== verification/TestMain.v ===== *)
(** * The test program [main.cc]

    The three structs of [main.cc] with their [REFLECT_STRUCT]
    declarations, [operator==] on [Params], and the program itself:
    [test_items], [test_reflect] and [main] as definitions that return how
    the run ends ([run_result]). A [fmt] string is given as the calls on
    [rapidjson::Writer] that print it, and [Document::Parse(fmt)] as
    [document_of_events] of those calls. The structs and documents are
    the concrete inputs of the witnesses of the general theorems
    ([RoundTrip], [ReaderPath]). *)

From stdpp Require Import base list strings.
From Stdlib Require Import ZArith.
From S2P Require Import Prelude CInt Json Types Visitor Reader Writer.

Local Open Scope Z_scope.

(** ** The structs (main.cc lines 4-28) *)

(** [struct Params { std::string hello; }; REFLECT_STRUCT(Params, (hello));] *)
Definition Params : ty := TStruct [("hello", TPrim PString)] ["hello"].
Definition mk_Params (hello : string) : value := VStruct [VString hello].

(** [struct Entity { uint64_t id; std::string name; Params params; };
    REFLECT_STRUCT(Entity, (id)(name)(params));] *)
Definition Entity : ty :=
  TStruct [("id", TPrim (PInt ULong)); ("name", TPrim PString); ("params", Params)]
          ["id"; "name"; "params"].
Definition mk_Entity (id : Z) (name : string) (params : value) : value :=
  VStruct [VInt id; VString name; params].

(** [struct Items { std::string name; std::vector<Params> items; };
    REFLECT_STRUCT(Items, (name)(items));] *)
Definition Items : ty :=
  TStruct [("name", TPrim PString); ("items", TVec Params)] ["name"; "items"].
Definition mk_Items (name : string) (items : list value) : value :=
  VStruct [VString name; VVec items].

(** ** The test documents *)

(** [{"id":10,"name":"hello","params":{"hello":"world"}}] *)
Definition entity_doc : json :=
  JObject [("id", JInt 10); ("name", JString "hello");
           ("params", JObject [("hello", JString "world")])].

(** [{"name":"ooknn","items":[{"hello":"one"},{"hello":"two"}]}] *)
Definition items_doc : json :=
  JObject [("name", JString "ooknn");
           ("items", JArray [JObject [("hello", JString "one")];
                             JObject [("hello", JString "two")]])].

(** The calls on [rapidjson::Writer] whose printed text is the test's
    [fmt] string: rapidjson prints each call as its JSON token. *)
Definition entity_fmt_events : list event :=
  [EvStartObject; EvKey "id"; EvUint64 10; EvKey "name"; EvString "hello";
   EvKey "params"; EvStartObject; EvKey "hello"; EvString "world"; EvEndObject; EvEndObject].

Definition items_fmt_events : list event :=
  [EvStartObject; EvKey "name"; EvString "ooknn"; EvKey "items"; EvStartArray;
   EvStartObject; EvKey "hello"; EvString "one"; EvEndObject;
   EvStartObject; EvKey "hello"; EvString "two"; EvEndObject;
   EvEndArray; EvEndObject].

(** ** The test program, run *)

(** How a run of the program ends: every [assert] held, an [assert] at a
    line of [main.cc] failed, or an exception escaped. *)
Inductive run_result := Passed | AssertFailed (line : nat) | Uncaught (e : exn).

(** [assert(b)] at [line], followed by the rest of the function. *)
Definition check (line : nat) (b : bool) (k : run_result) : run_result :=
  if b then k else AssertFailed line.

(** [operator==(const Params&, const Params&)] (lines 8-11). *)
Definition Params_eq (l r : value) : bool :=
  bool_decide (as_string (field_get 0 l) = as_string (field_get 0 r)).

(** [std::vector<Params>::operator==]: same length, elements pairwise
    equal. *)
Fixpoint Params_vec_eq (l r : list value) : bool :=
  match l, r with
  | [], [] => true
  | x :: l', y :: r' => Params_eq x y && Params_vec_eq l' r'
  | _, _ => false
  end.

(** [test_items()] (lines 30-57). [Items two;] is value-initialised. *)
Definition test_items : run_result :=
  let one := mk_Items "ooknn" [mk_Params "one"; mk_Params "two"] in
  match reflect Items (JsonWriter_ctor [], one) with
  | (Throw e, _) => Uncaught e
  | (Ok _, (w, _)) =>
      check 43 (bool_decide (out w = items_fmt_events)) (
      match document_of_events items_fmt_events with
      | None => AssertFailed 49
      | Some doc =>
          match reflect Items (JsonReader_ctor doc, value_init Items) with
          | (Throw e, _) => Uncaught e
          | (Ok _, (_, two)) =>
              check 54 (bool_decide (as_string (field_get 0 two) = as_string (field_get 0 one))) (
              check 55 (Params_vec_eq (as_list (field_get 1 two)) (as_list (field_get 1 one)))
                Passed)
          end
      end)
  end.

(** [test_reflect()] (lines 59-84). [Entity two;] leaves [id]
    indeterminate; the run starts from the value-initialised object. The
    document has every member of [Entity], so each field is overwritten
    by the read ([Reader.reflect_struct_members]) and the indeterminate
    [id] never reaches an [assert]. *)
Definition test_reflect : run_result :=
  let one := mk_Entity 10 "hello" (mk_Params "world") in
  match document_of_events entity_fmt_events with
  | None => AssertFailed 66
  | Some doc =>
      match reflect Entity (JsonReader_ctor doc, value_init Entity) with
      | (Throw e, _) => Uncaught e
      | (Ok _, (_, two)) =>
          check 72 (bool_decide (as_int (field_get 0 one) = as_int (field_get 0 two))) (
          check 73 (bool_decide (as_string (field_get 1 one) = as_string (field_get 1 two))) (
          check 74 (bool_decide (as_string (field_get 0 (field_get 2 one)) =
                                   as_string (field_get 0 (field_get 2 two)))) (
          match reflect Entity (JsonWriter_ctor [], one) with
          | (Throw e, _) => Uncaught e
          | (Ok _, (w, _)) => check 82 (bool_decide (out w = entity_fmt_events)) Passed
          end)))
      end
  end.

(** [main()] (lines 86-91): [test_reflect()], then [test_items()]. *)
Definition main : run_result :=
  match test_reflect with
  | Passed => test_items
  | r => r
  end.
