(* ===== verification/RoundTrip.v ===== *)
(** * Writing then reading

    The spec's central property (§8): for a value of a declared struct
    type, [decode(encode(V)) == V]. It is split in three steps.
    - [encode_parses]: the calls the writer makes print a text that parses
      back to the document [to_json t v], with the fuel of
      [document_of_events].
    - [decode_to_json_merge]: decoding [to_json t v] into any
      well-typed target [v0] yields [merge t v0 v]; [decode_to_json] is
      the case of a target whose vectors are empty, which yields [v].
    - [reflect_roundtrip]: the three together, stated on the two
      instances of the generic [reflect].

    The round trip needs two conditions on [v]: no string contains a NUL
    byte, and no double is NaN or infinite. [string_roundtrip_truncates]
    shows that the first condition cannot be dropped. The reader's
    [getString] stops at the first NUL byte, although the writer writes
    the whole string. *)

From stdpp Require Import base list strings sets.
From Stdlib Require Import ZArith Lia Floats Ascii.
From S2P Require Import Prelude CInt Json Types Visitor Reader Writer TestMain.

(** ** The document a value prints as *)

Definition prim_json (p : prim) (v : value) : json :=
  match p with
  | PBool => JBool (as_bool v)
  | PInt _ => JInt (as_int v)
  | PDouble => JDouble (as_double v)
  | PString => JString (as_string v)
  | PNull => JNull
  end.

Fixpoint to_json (t : ty) (v : value) : json :=
  match t with
  | TPrim p => prim_json p v
  | TVec t' => JArray (map (to_json t') (as_list v))
  | TStruct fs decl =>
      let js := map (fun '(_, ft) => to_json ft) fs in
      JObject (map (fun n => let i := field_index n fs in
                             (n, nth i js (fun _ => JNull) (field_get i v))) decl)
  end.

(** [es] is a nonempty call sequence that parses to [j], whatever follows
    it, with any fuel above its length. *)
Definition parses (es : list event) (j : json) : Prop :=
  es <> [] /\ forall fuel rest, length es < fuel -> parse_value fuel (es ++ rest) = Some (j, rest).

(** ** Parsing the calls of a vector and of a struct *)

(** A sequence that parses as a value does not start with a closing call
    or a key. *)
Lemma parses_head es j :
  parses es j -> exists e es', es = e :: es' /\ e <> EvEndArray /\ e <> EvEndObject.
Proof.
  intros [Hne Hp]. destruct es as [|e es']; [done|].
  specialize (Hp (S (length (e :: es'))) [] ltac:(lia)).
  exists e, es'. destruct e; simpl in Hp; try discriminate; auto.
Qed.

Lemma parse_elems_step fuel es j rest acc :
  parses es j -> length es < fuel ->
  parse_elems (S fuel) (es ++ rest) acc = parse_elems fuel rest (j :: acc).
Proof.
  intros Hes Hlen. pose proof (proj2 Hes fuel rest Hlen) as Hv.
  destruct (parses_head es j Hes) as (e & es' & -> & Hend & _).
  destruct e; simpl in Hv |- *; try rewrite Hv; congruence.
Qed.

Lemma parse_members_step fuel k es j rest acc :
  parses es j -> length es < fuel ->
  parse_members (S fuel) (EvKey k :: es ++ rest) acc = parse_members fuel rest ((k, j) :: acc).
Proof. intros [_ Hp] Hlen. simpl. by rewrite Hp. Qed.

Lemma parse_elems_concat (items : list (list event * json)) acc fuel rest :
  Forall (fun it => parses it.1 it.2) items ->
  length (concat (map fst items)) + 1 < fuel ->
  parse_elems fuel (concat (map fst items) ++ EvEndArray :: rest) acc =
  Some (JArray (rev acc ++ map snd items), rest).
Proof.
  revert acc fuel. induction items as [|[es j] items IH]; intros acc fuel Hall Hlen.
  - destruct fuel as [|f]; [lia|]. simpl. by rewrite app_nil_r.
  - apply Forall_cons_iff in Hall as [Hes Hall]. simpl in Hes, Hlen |- *.
    rewrite length_app in Hlen. destruct fuel as [|f]; [lia|].
    assert (0 < length es) by (destruct es; [by destruct Hes|simpl; lia]).
    rewrite <- app_assoc, (parse_elems_step f es j) by (done || lia).
    rewrite IH by (done || lia). simpl. by rewrite <- app_assoc.
Qed.

Lemma parse_members_concat (items : list (string * list event * json)) acc fuel rest :
  Forall (fun it => parses it.1.2 it.2) items ->
  length (concat (map (fun it => EvKey it.1.1 :: it.1.2) items)) + 1 < fuel ->
  parse_members fuel (concat (map (fun it => EvKey it.1.1 :: it.1.2) items) ++ EvEndObject :: rest) acc =
  Some (JObject (rev acc ++ map (fun it => (it.1.1, it.2)) items), rest).
Proof.
  revert acc fuel. induction items as [|[[k es] j] items IH]; intros acc fuel Hall Hlen.
  - destruct fuel as [|f]; [lia|]. simpl. by rewrite app_nil_r.
  - apply Forall_cons_iff in Hall as [Hes Hall]. simpl in Hes, Hlen |- *.
    rewrite length_app in Hlen. destruct fuel as [|f]; [lia|]. simpl in Hlen.
    rewrite <- app_assoc, (parse_members_step f k es j) by (done || lia).
    rewrite IH by (done || lia). simpl. by rewrite <- app_assoc.
Qed.

(** ** The writer's calls parse to [to_json] *)

(** A declared member names a field, and any property of every field
    holds of it. *)
Lemma declared_field (Q : ty -> Prop) fs n :
  n ∈ fs.*1 -> Forall (fun f => Q f.2) fs ->
  exists ft, fs !! field_index n fs = Some (n, ft) /\ Q ft.
Proof.
  intros Hn Hall. destruct (field_index_lookup n fs Hn) as [ft Hft].
  exists ft. split; [done|]. exact (Forall_lookup_1 _ _ _ _ Hall Hft).
Qed.

Lemma encode_parses t v :
  wf_ty t = true -> portable t v = true -> parses (encode t v) (to_json t v).
Proof.
  revert v. induction t as [p|t IH|fs decl IH] using ty_nested_ind; intros v Hwf Hp.
  - split; [done|]. intros [|f] rest Hlen; [simpl in Hlen; lia|].
    destruct p as [|[]| | |]; try reflexivity.
    destruct v; unfold portable in Hp; simpl in *; try rewrite Hp; reflexivity.
  - destruct (tyval_all_vec_inv _ _ _ _ Hp) as (l & -> & _ & Hl).
    split; [done|]. intros [|f] rest Hlen; [simpl in Hlen; lia|].
    pose proof (parse_elems_concat (map (fun x => (encode t x, to_json t x)) l) [] f rest)
      as Hpe.
    rewrite !map_map in Hpe. simpl in *.
    change (fun x : value => encode t x) with (encode t) in Hpe.
    rewrite <- app_assoc. apply Hpe.
    + apply Forall_map. eapply Forall_impl; [exact Hl|]. intros x Hx. by apply IH.
    + rewrite !length_app in Hlen. simpl in Hlen. lia.
  - destruct (tyval_all_struct_inv _ _ _ _ _ Hp) as (vs & -> & _).
    apply wf_ty_struct in Hwf as (_ & _ & Hdecl & _ & Hwfs).
    split; [done|]. intros [|f] rest Hlen; [simpl in Hlen; lia|].
    pose proof (parse_members_concat
      (map (fun n => let i := field_index n fs in
                     (n, nth i (map (fun '(_, ft) => encode ft) fs) (fun _ => []) (field_get i (VStruct vs)),
                      nth i (map (fun '(_, ft) => to_json ft) fs) (fun _ => JNull) (field_get i (VStruct vs))))
           decl) [] f rest) as Hpm.
    rewrite !map_map in Hpm. simpl in *. rewrite <- app_assoc. apply Hpm.
    + apply Forall_map. eapply Forall_impl; [exact Hdecl|]. intros n Hn. simpl.
      destruct (declared_field (fun ft => forall v, wf_ty ft = true -> portable ft v = true ->
                                 parses (encode ft v) (to_json ft v)) fs n Hn IH)
        as (ft & Hft & IHft).
      pose proof (Forall_lookup_1 _ _ _ _ Hwfs Hft) as Hwft.
      rewrite !nth_field_map, Hft. apply IHft; [done|].
      exact (tyval_all_field _ _ fs decl vs _ n ft Hp Hft).
    + rewrite !length_app in Hlen. simpl in Hlen. lia.
Qed.

(** ** Reading [to_json] back *)

(** Each integer overload accepts the number its writer overload prints,
    and its cast keeps it. *)
Lemma read_rule_int k z :
  in_range k z = true ->
  exists what is_kind get_value, read_rule (PInt k) = Some (what, is_kind, get_value) /\
    is_kind (JInt z) = true /\ get_value (JInt z) = VInt z.
Proof.
  intros Hz. destruct k; do 3 eexists; (split; [reflexivity|]); simpl;
    rewrite ?cast_id by done; (split; [range_lia|done]).
Qed.

Lemma decode_prim_to_json p v v0 :
  wt (TPrim p) v = true -> portable (TPrim p) v = true -> wt (TPrim p) v0 = true ->
  decode_prim p (prim_json p v) v0 = Ok v.
Proof.
  unfold wt, portable. intros Hv Hp Hv0.
  destruct p as [|k| | |], v; simpl in *; try discriminate; try reflexivity.
  - destruct (read_rule_int k z Hv) as (what & is_kind & get_value & Hr & Hk & Hg).
    unfold decode_prim. by rewrite Hr, Hk, Hg.
  - unfold decode_prim. simpl. unfold getString. simpl. by rewrite cstr_nul_free.
  - destruct v0; done.
Qed.

Lemma decode_elems_to_json t l acc :
  (forall x, x ∈ l -> decode t (to_json t x) (value_init t) = Ok x) ->
  foldM (decode_elem (decode t) t) (map (to_json t) l) (VVec acc) = Ok (VVec (acc ++ l)).
Proof.
  revert acc. induction l as [|x l IH]; intros acc Hl; simpl.
  - by rewrite app_nil_r.
  - unfold decode_elem. rewrite Hl by set_solver. simpl.
    rewrite IH by (intros; apply Hl; set_solver). by rewrite <- app_assoc.
Qed.

(** Copying the members at positions [ix] from [vs] into [cs]. *)
Definition copy_fields (vs : list value) (ix : list nat) (cs : list value) : list value :=
  foldl (fun cs i => <[i := default VNull (vs !! i)]> cs) cs ix.

Lemma copy_fields_lookup vs ix cs k :
  length vs = length cs ->
  copy_fields vs ix cs !! k = if decide (k ∈ ix) then vs !! k else cs !! k.
Proof.
  revert cs. induction ix as [|i ix IH]; intros cs Hlen; simpl; [done|].
  rewrite IH by (by rewrite length_insert).
  destruct (decide (k ∈ ix)) as [Hk|Hk]; destruct (decide (k ∈ i :: ix)) as [Hk'|Hk'];
    [done|set_solver| |].
  - assert (i = k) as Hik by (apply elem_of_cons in Hk' as [|]; [done|contradiction]). subst i.
    destruct (decide (k < length cs)).
    + rewrite list_lookup_insert_eq by done.
      destruct (vs !! k) eqn:Hvk; [done|]. apply lookup_ge_None in Hvk. lia.
    + rewrite list_insert_ge by lia.
      rewrite !(proj2 (lookup_ge_None _ _)) by lia. done.
  - rewrite list_lookup_insert_ne; [done|set_solver].
Qed.

Lemma foldM_copy_fields (g : string -> value -> outcome value) (idx : string -> nat)
    (ns : list string) (vs vs0 cs : list value) :
  NoDup ns ->
  (forall n1 n2, n1 ∈ ns -> n2 ∈ ns -> idx n1 = idx n2 -> n1 = n2) ->
  (forall n (cs : list value), n ∈ ns -> cs !! idx n = vs0 !! idx n ->
     g n (VStruct cs) = Ok (VStruct (<[idx n := default VNull (vs !! idx n)]> cs))) ->
  (forall n, n ∈ ns -> cs !! idx n = vs0 !! idx n) ->
  foldM g ns (VStruct cs) = Ok (VStruct (copy_fields vs (map idx ns) cs)).
Proof.
  revert cs. induction ns as [|n ns IH]; intros cs Hnd Hinj Hg Hcs; simpl; [done|].
  inversion Hnd as [|? ? Hn Hnd']; subst.
  rewrite Hg by set_solver. apply IH; [done| | |].
  - intros n1 n2 ??. apply Hinj; set_solver.
  - intros n' cs' ??. apply Hg; set_solver.
  - intros n' Hn'. rewrite list_lookup_insert_ne; [apply Hcs; set_solver|].
    intros Heq. apply Hn. rewrite (Hinj n n'); set_solver.
Qed.

(** Every field position is the position of a declared name. *)
Lemma fields_declared fs decl k :
  wf_ty (TStruct fs decl) = true -> k < length fs -> k ∈ map (fun n => field_index n fs) decl.
Proof.
  intros Hwf Hk. apply wf_ty_struct in Hwf as (Hnd & _ & _ & Hcov & _).
  destruct (lookup_lt_is_Some_2 fs k Hk) as [[n ft] Hnk].
  apply list_elem_of_fmap. exists n. split.
  - symmetry. by apply (field_index_nth n fs k ft).
  - apply (Forall_lookup_1 (fun n => n ∈ decl) (fs.*1) k n Hcov).
    by rewrite list_lookup_fmap, Hnk.
Qed.

(** [merge t v0 v]: what reading the document of [v] leaves in [v0].
    A primitive is overwritten. A vector gets the elements of [v]
    appended to its own: [reflect(JsonReader&, std::vector<T>&)]
    (lines 101-105) emplaces without clearing, and each new element is
    read into a value-initialised [T]. A struct is merged field by
    field. *)
Fixpoint merge (t : ty) (v0 v : value) : value :=
  match t, v0, v with
  | TPrim _, _, _ => v
  | TVec _, _, _ => VVec (as_list v0 ++ as_list v)
  | TStruct fs _, VStruct vs0, VStruct vs =>
      VStruct ((fix go (fs : list (string * ty)) (vs0 vs : list value) : list value :=
                  match fs, vs0, vs with
                  | (_, ft) :: fs', x0 :: vs0', x :: vs' => merge ft x0 x :: go fs' vs0' vs'
                  | _, _, _ => []
                  end) fs vs0 vs)
  | TStruct _ _, _, _ => v
  end.

(** The fields of a merged struct. *)
Lemma merge_struct fs decl vs0 vs :
  length vs0 = length fs -> length vs = length fs ->
  exists ws, merge (TStruct fs decl) (VStruct vs0) (VStruct vs) = VStruct ws /\
    length ws = length fs /\
    forall i n ft x0 x, fs !! i = Some (n, ft) -> vs0 !! i = Some x0 -> vs !! i = Some x ->
      ws !! i = Some (merge ft x0 x).
Proof.
  intros H0 H1. eexists. split; [reflexivity|].
  revert vs0 vs H0 H1. induction fs as [|[n ft] fs IH]; intros [|x0 vs0] [|x vs] H0 H1;
    simpl in *; try discriminate; [split; [done|intros ? ? ? ? ? Hi; by rewrite lookup_nil in Hi]|].
  injection H0 as H0. injection H1 as H1. destruct (IH vs0 vs H0 H1) as [Hlen Hl].
  split; [simpl; lia|]. intros [|i] n' ft' y0 y; simpl; [intros; by simplify_eq|apply Hl].
Qed.

(** Merging into an object whose vectors are empty gives the object. *)
Lemma merge_vecs_empty t v0 v :
  wt t v0 = true -> wt t v = true -> vecs_empty t v0 = true -> merge t v0 v = v.
Proof.
  revert v0 v. induction t as [p|t IH|fs decl IH] using ty_nested_ind; intros v0 v Hv0 Hv He.
  - done.
  - destruct (tyval_all_vec_inv _ _ _ _ He) as ([|] & -> & Hl & _); [|discriminate].
    by destruct (tyval_all_vec_inv _ _ _ _ Hv) as (l & -> & _).
  - destruct (tyval_all_struct_inv _ _ _ _ _ Hv0) as (vs0 & -> & Hvs0).
    destruct (tyval_all_struct_inv _ _ _ _ _ Hv) as (vs & -> & Hvs).
    destruct (merge_struct fs decl vs0 vs) as (ws & -> & Hlen & Hws);
      [symmetry; exact (Forall2_length _ _ _ Hvs0)|symmetry; exact (Forall2_length _ _ _ Hvs)|].
    f_equal. apply list_eq. intros i.
    destruct (fs !! i) as [[n ft]|] eqn:Hi.
    + destruct (Forall2_lookup_l _ _ _ _ _ Hvs0 Hi) as (x0 & Hx0 & Hwt0).
      destruct (Forall2_lookup_l _ _ _ _ _ Hvs Hi) as (x & Hx & Hwt).
      rewrite (Hws i n ft x0 x Hi Hx0 Hx), Hx. f_equal.
      apply (Forall_lookup_1 _ _ _ _ IH Hi); [done|done|].
      pose proof (tyval_all_field _ _ fs decl vs0 i n ft He Hi) as He'.
      unfold field_get in He'. by rewrite Hx0 in He'.
    + apply lookup_ge_None in Hi. pose proof (Forall2_length _ _ _ Hvs).
      rewrite !(proj2 (lookup_ge_None _ _)); [done|lia|lia].
Qed.

(** Decoding one member of [to_json] stores the merge of the written
    member into the target's. *)
Lemma decode_member_to_json fs decl (vs vs0 ws : list value) n ft (cs : list value) :
  let i := field_index n fs in
  let obj := to_json (TStruct fs decl) (VStruct vs) in
  n ∈ decl -> fs !! i = Some (n, ft) ->
  (forall v v0, wt ft v = true -> portable ft v = true -> wt ft v0 = true ->
     decode ft (to_json ft v) v0 = Ok (merge ft v0 v)) ->
  Forall2 (fun f x => wt f.2 x = true) fs vs ->
  Forall2 (fun f x => portable f.2 x = true) fs vs ->
  Forall2 (fun f x => wt f.2 x = true) fs vs0 ->
  (forall x0 x, vs0 !! i = Some x0 -> vs !! i = Some x -> ws !! i = Some (merge ft x0 x)) ->
  cs !! i = vs0 !! i ->
  decode_member fs (map (fun '(_, ft) => decode ft) fs) obj n (VStruct cs) =
  Ok (VStruct (<[i := default VNull (ws !! i)]> cs)).
Proof.
  intros i obj Hn Hi IHft Hvs Hps Hvs0 Hws Hcs.
  unfold decode_member, obj. simpl to_json. rewrite FindMember_object, find_in_keys by done.
  fold i. rewrite !nth_field_map, Hi.
  destruct (Forall2_lookup_l _ _ _ _ _ Hvs0 Hi) as (x0 & Hx0 & Hwt0).
  destruct (Forall2_lookup_l _ _ _ _ _ Hvs Hi) as (x & Hx & Hwt).
  destruct (Forall2_lookup_l _ _ _ _ _ Hps Hi) as (x' & Hx' & Hp). rewrite Hx in Hx'. injection Hx' as <-.
  simpl. rewrite Hcs, Hx0, Hx. simpl. rewrite IHft by done. by rewrite (Hws x0 x Hx0 Hx).
Qed.

(** Decoding [to_json t v] into any well-typed target [v0] succeeds with
    [merge t v0 v]. *)
Lemma decode_to_json_merge t v v0 :
  wf_ty t = true -> wt t v = true -> portable t v = true -> wt t v0 = true ->
  decode t (to_json t v) v0 = Ok (merge t v0 v).
Proof.
  revert v v0.
  induction t as [p|t IH|fs decl IH] using ty_nested_ind; intros v v0 Hwf Hv Hp Hv0.
  - by apply decode_prim_to_json.
  - destruct (tyval_all_vec_inv _ _ _ _ Hv) as (l & -> & _ & Hl).
    destruct (tyval_all_vec_inv _ _ _ _ Hv0) as (l0 & -> & _ & _).
    destruct (tyval_all_vec_inv _ _ _ _ Hp) as (? & [=<-] & _ & Hpl).
    simpl. apply (decode_elems_to_json t l l0).
    intros x Hx. rewrite IH; [|done|exact (proj1 (Forall_forall _ l) Hl x Hx)
                              |exact (proj1 (Forall_forall _ l) Hpl x Hx)|apply wt_value_init].
    f_equal. apply merge_vecs_empty; auto using wt_value_init, vecs_empty_value_init.
    exact (proj1 (Forall_forall _ l) Hl x Hx).
  - destruct (tyval_all_struct_inv _ _ _ _ _ Hv) as (vs & -> & Hvs).
    destruct (tyval_all_struct_inv _ _ _ _ _ Hv0) as (vs0 & -> & Hvs0).
    destruct (tyval_all_struct_inv _ _ _ _ _ Hp) as (? & [= <-] & Hps).
    pose proof Hwf as (Hnd & Hnd' & Hdecl & _ & Hwfs)%wf_ty_struct.
    pose proof (Forall2_length _ _ _ Hvs). pose proof (Forall2_length _ _ _ Hvs0).
    destruct (merge_struct fs decl vs0 vs) as (ws & Hm & Hlen & Hws); [lia|lia|]. rewrite Hm.
    simpl decode. cbn [IsObject to_json].
    erewrite (foldM_copy_fields _ (fun n => field_index n fs) decl ws vs0 vs0); [|done| | |done].
    + f_equal. f_equal. apply list_eq. intros k.
      rewrite copy_fields_lookup by lia.
      case_decide as Hk; [done|].
      assert (length fs <= k).
      { destruct (decide (k < length fs)); [|lia]. exfalso. by apply Hk, (fields_declared fs decl). }
      rewrite !(proj2 (lookup_ge_None _ _)); [done|lia|lia].
    + intros n1 n2 Hn1 Hn2 Heq.
      destruct (field_index_lookup n1 fs) as [ft1 H1]; [exact (proj1 (Forall_forall _ decl) Hdecl _ Hn1)|].
      destruct (field_index_lookup n2 fs) as [ft2 H2]; [exact (proj1 (Forall_forall _ decl) Hdecl _ Hn2)|].
      rewrite Heq, H2 in H1. congruence.
    + intros n cs Hn Hcs.
      destruct (declared_field (fun ft => forall v v0, wf_ty ft = true -> wt ft v = true ->
                  portable ft v = true -> wt ft v0 = true ->
                  decode ft (to_json ft v) v0 = Ok (merge ft v0 v)) fs n) as (ft & Hft & IHft);
        [exact (proj1 (Forall_forall _ decl) Hdecl _ Hn)|done|].
      apply (decode_member_to_json fs decl vs vs0 ws n ft cs); auto.
      * intros. apply IHft; auto. exact (Forall_lookup_1 _ _ _ _ Hwfs Hft).
      * intros x0 x. by apply (Hws _ n).
Qed.

Lemma decode_to_json t v v0 :
  wf_ty t = true -> wt t v = true -> portable t v = true ->
  wt t v0 = true -> vecs_empty t v0 = true ->
  decode t (to_json t v) v0 = Ok v.
Proof.
  intros. rewrite decode_to_json_merge by done. f_equal. by apply merge_vecs_empty.
Qed.

(** ** The round trip *)

(** The writer's calls for a portable object parse to [to_json]. *)
Lemma encode_document t v :
  wf_ty t = true -> portable t v = true ->
  document_of_events (encode t v) = Some (to_json t v).
Proof.
  intros Hwf Hp. unfold document_of_events.
  destruct (encode_parses t v Hwf Hp) as [_ Hparse].
  rewrite <- (app_nil_r (encode t v)) at 2. by rewrite Hparse by lia.
Qed.

(** The reader reads [to_json t v] back as [v] and is left as it was. *)
Lemma reader_reads_to_json t v v0 p :
  wf_ty t = true -> wt t v = true -> portable t v = true ->
  wt t v0 = true -> vecs_empty t v0 = true ->
  reflect t (mkReader (to_json t v) p, v0) = (Ok tt, (mkReader (to_json t v) p, v)).
Proof.
  intros. pose proof (reflect_refines_decode t (mkReader (to_json t v) p, v0)) as Hr.
  unfold rd_spec in Hr. simpl in Hr. by rewrite decode_to_json in Hr.
Qed.

(** C1. Round trip. Let [t] be a type whose [REFLECT_STRUCT]
    declarations list every member once. Let [v] be an object of type [t]
    with no NUL byte in its strings and no NaN or infinite double. Writing
    [v] with a fresh [JsonWriter] makes a call sequence. Its text parses to
    a document [j]. Reading [j] with a fresh [JsonReader] into any object
    [v0] of type [t] whose vectors are empty succeeds. It yields exactly
    [v] and leaves the reader as it was. *)
Theorem reflect_roundtrip t v v0 :
  wf_ty t = true -> wt t v = true -> portable t v = true ->
  wt t v0 = true -> vecs_empty t v0 = true ->
  reflect t (mkWriter [], v) = (Ok tt, (mkWriter (encode t v), v)) /\
  document_of_events (encode t v) = Some (to_json t v) /\
  reflect t (mkReader (to_json t v) [], v0) = (Ok tt, (mkReader (to_json t v) [], v)).
Proof.
  intros. split; [apply writer_appends|split];
    [by apply encode_document|by apply reader_reads_to_json].
Qed.

(** C23. Reading into an object that is not fresh. Let [t] and [v] be
    as in C1 and [v0] any object of type [t], its vectors possibly
    nonempty. Reading the document that writing [v] prints into [v0]
    succeeds and leaves [merge t v0 v]: every primitive field takes the
    written value, every vector reached through struct fields keeps its
    elements and gets the written ones appended, and the reader is left
    as it was. C1 is the case of empty vectors, where [merge t v0 v] is
    [v]. *)
Theorem reflect_reads_merge t v v0 p :
  wf_ty t = true -> wt t v = true -> portable t v = true -> wt t v0 = true ->
  document_of_events (encode t v) = Some (to_json t v) /\
  reflect t (mkReader (to_json t v) p, v0) = (Ok tt, (mkReader (to_json t v) p, merge t v0 v)).
Proof.
  intros. split; [by apply encode_document|].
  pose proof (reflect_refines_decode t (mkReader (to_json t v) p, v0)) as Hr.
  unfold rd_spec in Hr. simpl in Hr. by rewrite decode_to_json_merge in Hr.
Qed.

(** Witness of C39: the object of [test_items] read into itself; the
    name is overwritten and the two [Params] are appended again. *)
Lemma reflect_reads_merge_witness :
  let one := mk_Items "ooknn" [mk_Params "one"; mk_Params "two"] in
  wf_ty Items = true /\ wt Items one = true /\ portable Items one = true /\
  merge Items one one = mk_Items "ooknn" [mk_Params "one"; mk_Params "two";
                                          mk_Params "one"; mk_Params "two"] /\
  (document_of_events (encode Items one) = Some (to_json Items one) /\
   reflect Items (mkReader (to_json Items one) [], one) =
     (Ok tt, (mkReader (to_json Items one) [], merge Items one one))).
Proof.
  intros one. do 4 (split; [reflexivity|]). apply reflect_reads_merge; reflexivity.
Defined.

(** C4. The round trip fails for every string with an embedded NUL byte.
    The writer writes the whole string: [JsonWriter::string(s, len)]
    passes the length. The reader keeps only the part before the first
    NUL: [getString] converts [m->GetString()] with [std::string(const
    char * )]. The spec (§4.1) says the length is passed to support
    embedded zero bytes. *)
Theorem string_roundtrip_truncates s v0 :
  nul_free s = false ->
  let j := to_json (TPrim PString) (VString s) in
  reflect (TPrim PString) (mkWriter [], VString s) =
    (Ok tt, (mkWriter [EvString s], VString s)) /\
  document_of_events [EvString s] = Some j /\
  reflect (TPrim PString) (mkReader j [], v0) = (Ok tt, (mkReader j [], VString (cstr s))) /\
  cstr s <> s.
Proof.
  intros Hs j. split; [done|split; [done|split]].
  - reflexivity.
  - intros Heq. pose proof (cstr_shorter s Hs) as Hlt. rewrite Heq in Hlt. lia.
Qed.

(** Witness of C1: the [Items] of [main.cc] with the test's value, read
    back into a default [Items]. *)
Lemma reflect_roundtrip_witness :
  let one := mk_Items "ooknn" [mk_Params "one"; mk_Params "two"] in
  wf_ty Items = true /\ wt Items one = true /\ portable Items one = true /\
  wt Items (value_init Items) = true /\ vecs_empty Items (value_init Items) = true /\
  reflect Items (mkWriter [], one) = (Ok tt, (mkWriter (encode Items one), one)) /\
  document_of_events (encode Items one) = Some (to_json Items one) /\
  reflect Items (mkReader (to_json Items one) [], value_init Items) =
    (Ok tt, (mkReader (to_json Items one) [], one)).
Proof.
  do 5 (split; [reflexivity|]). apply reflect_roundtrip; reflexivity.
Defined.

(** Witness of C5: ["a\000b"] is read back as ["a"]. *)
Lemma string_roundtrip_truncates_witness :
  let s := String "a"%char (String Ascii.zero (String "b"%char EmptyString)) in
  nul_free s = false /\
  let j := to_json (TPrim PString) (VString s) in
  reflect (TPrim PString) (mkWriter [], VString s) =
    (Ok tt, (mkWriter [EvString s], VString s)) /\
  document_of_events [EvString s] = Some j /\
  reflect (TPrim PString) (mkReader j [], VNull) = (Ok tt, (mkReader j [], VString (cstr s))) /\
  cstr s <> s.
Proof.
  split; [reflexivity|]. apply string_roundtrip_truncates. reflexivity.
Defined.


