(* ===== verification/ReadWrite.v ===== *)
(** * Reading then writing

    The converse round trip of the spec's tests (§8): a document read into
    a struct and written back prints the same document. [test_items] and
    [test_reflect] check it on one text each. It holds exactly for the
    documents that [conforms] accepts:
    - every object has the declared members, each once, in declaration
      order, and no other member: the writer prints all declared members
      in that order (lines 130-134, 163-169);
    - every integer fits the type of its field: a wider one is reduced
      modulo [2^bits] on reading (lines 70-76) and printed reduced;
    - no string has a NUL byte: [getString] stops at the first one
      (line 56);
    - arrays match vector fields and the primitive kinds match.

    [conforms_to_json] shows that such a document is [to_json t v] for an
    object [v] that the forward round trip handles. [read_write_roundtrip]
    then reads [j] and writes the object back. *)

From stdpp Require Import base list strings sets.
From Stdlib Require Import ZArith Floats.
From S2P Require Import Prelude CInt Json Types Visitor Reader Writer TestMain RoundTrip.

Definition conforms_prim (p : prim) (j : json) : bool :=
  match p, j with
  | PBool, JBool _ => true
  | PInt k, JInt z => in_range k z
  | PDouble, JDouble d => PrimFloat.is_finite d
  | PString, JString s => nul_free s
  | PNull, JNull => true
  | _, _ => false
  end.

Fixpoint conforms (t : ty) (j : json) : bool :=
  match t, j with
  | TPrim p, _ => conforms_prim p j
  | TVec t', JArray l => forallb (conforms t') l
  | TStruct fs decl, JObject ms =>
      bool_decide (map fst ms = decl) &&
      forallb (fun '(n, c) => nth (field_index n fs) (map (fun '(_, ft) => conforms ft) fs)
                                  (fun _ => false) c) ms
  | _, _ => false
  end.

(** ** A conforming document is printed by some object *)

(** The object printed as a conforming document, for one field. *)
Definition field_witness (ms : list (string * json)) (f : string * ty) (x : value) : Prop :=
  exists c, find_in f.1 ms = Some c /\ wt f.2 x = true /\ portable f.2 x = true /\
            to_json f.2 x = c.

Lemma conforms_prim_to_json p j :
  conforms_prim p j = true ->
  exists v, wt (TPrim p) v = true /\ portable (TPrim p) v = true /\ to_json (TPrim p) v = j.
Proof.
  unfold wt, portable. intros Hc.
  destruct p as [|k| | |], j; simpl in Hc; try discriminate;
    [exists (VBool b)|exists (VInt z)|exists (VDouble d)|exists (VString s)|exists VNull];
    simpl; rewrite ?Hc; done.
Qed.

(** Each member of a conforming object, looked up by a field name, is
    printed by some value of the field's type. *)
Lemma conforms_fields fs decl ms :
  wf_ty (TStruct fs decl) = true -> conforms (TStruct fs decl) (JObject ms) = true ->
  Forall (fun f => forall j, wf_ty f.2 = true -> conforms f.2 j = true ->
            exists v, wt f.2 v = true /\ portable f.2 v = true /\ to_json f.2 v = j) fs ->
  exists vs, Forall2 (field_witness ms) fs vs.
Proof.
  intros Hwf Hc IH. apply Forall_Forall2_choice.
  apply wf_ty_struct in Hwf as (Hnd & _ & _ & Hcov & Hwfs).
  simpl in Hc. apply andb_true_iff in Hc as [Hk%bool_decide_eq_true Hall].
  apply Forall_lookup. intros i [k ft] Hi.
  assert (Hkd : k ∈ map fst ms).
  { rewrite Hk. apply (Forall_lookup_1 _ (fs.*1) i k Hcov). by rewrite list_lookup_fmap, Hi. }
  destruct (find_in_is_Some k ms Hkd) as [c Hfc].
  pose proof (proj1 (forallb_forall _ ms) Hall (k, c)
                (proj1 (list_elem_of_In _ _) (find_in_Some _ _ _ Hfc))) as Hcc.
  simpl in Hcc. rewrite (field_index_nth k fs i ft Hnd Hi), nth_field_map, Hi in Hcc.
  destruct (Forall_lookup_1 _ _ _ _ IH Hi c (Forall_lookup_1 _ _ _ _ Hwfs Hi) Hcc)
    as (x & Hx & Hp & Hj).
  exists x, c. done.
Qed.

(** A conforming document is [to_json t v] for an object [v] of type [t]
    with NUL-free strings and finite doubles. *)
Lemma conforms_to_json t j :
  wf_ty t = true -> conforms t j = true ->
  exists v, wt t v = true /\ portable t v = true /\ to_json t v = j.
Proof.
  revert j. induction t as [p|t IH|fs decl IH] using ty_nested_ind; intros j Hwf Hc.
  - by apply conforms_prim_to_json.
  - destruct j as [| | | | |l|]; try discriminate. simpl in Hc, Hwf.
    assert (Hex : exists xs, Forall2 (fun c x => wt t x = true /\ portable t x = true /\
                                                 to_json t x = c) l xs).
    { apply Forall_Forall2_choice, Forall_forall. intros c Hin. apply IH; [done|].
      exact (proj1 (forallb_forall _ l) Hc c (proj1 (list_elem_of_In _ _) Hin)). }
    destruct Hex as [xs Hxs]. exists (VVec xs). split; [|split].
    + apply tyval_all_vec. split; [done|].
      exact (Forall2_Forall_snd _ _ _ _ (fun _ _ H => proj1 H) Hxs).
    + apply tyval_all_vec. split; [done|].
      exact (Forall2_Forall_snd _ _ _ _ (fun _ _ H => proj1 (proj2 H)) Hxs).
    + simpl. f_equal. apply Forall2_map_r.
      eapply Forall2_impl; [exact Hxs|]. by intros ?? (_ & _ & ?).
  - destruct j as [| | | | | |ms]; try discriminate.
    destruct (conforms_fields fs decl ms Hwf Hc IH) as [vs Hvs].
    exists (VStruct vs). split; [|split].
    + apply tyval_all_struct. eapply Forall2_impl; [exact Hvs|]. by intros ?? (? & _ & ? & _).
    + apply tyval_all_struct. eapply Forall2_impl; [exact Hvs|]. by intros ?? (? & _ & _ & ? & _).
    + apply wf_ty_struct in Hwf as (Hnd & Hnd' & Hdecl & _ & _).
      simpl in Hc. apply andb_true_iff in Hc as [Hk%bool_decide_eq_true _].
      simpl. f_equal. rewrite <- Hk, map_map.
      transitivity (map (fun kc => kc) ms); [|apply map_id].
      apply map_ext_in. intros [k c] Hin%list_elem_of_In. simpl.
      assert (Hkd : k ∈ decl) by (rewrite <- Hk; apply list_elem_of_fmap; by exists (k, c)).
      destruct (field_index_lookup k fs (proj1 (Forall_forall _ decl) Hdecl k Hkd)) as [ft Hft].
      edestruct (Forall2_lookup_l (field_witness ms) fs vs) as (x & Hx & c' & Hf' & _ & _ & Hj);
        [exact Hvs|exact Hft|].
      simpl in Hf'. rewrite nth_field_map, Hft. simpl. rewrite Hx. simpl in Hj |- *. rewrite Hj.
      rewrite (find_in_elem k ms c) in Hf'; [congruence|by rewrite Hk|done].
Qed.

(** ** The converse round trip *)

(** C13. Reading then writing. Let [t] be a type whose [REFLECT_STRUCT]
    declarations list every member once, and [j] a document that
    conforms to [t]. Reading [j] with a fresh [JsonReader] into an object
    of type [t] whose vectors are empty succeeds with some object [v]
    and leaves the reader as it was. Writing [v] with a fresh
    [JsonWriter] succeeds, and the text it prints parses back to [j]. *)
Theorem read_write_roundtrip t j v0 :
  wf_ty t = true -> conforms t j = true -> wt t v0 = true -> vecs_empty t v0 = true ->
  exists v, reflect t (mkReader j [], v0) = (Ok tt, (mkReader j [], v)) /\
            reflect t (mkWriter [], v) = (Ok tt, (mkWriter (encode t v), v)) /\
            document_of_events (encode t v) = Some j.
Proof.
  intros Hwf Hc Hv0 He0.
  destruct (conforms_to_json t j Hwf Hc) as (v & Hv & Hp & <-).
  exists v. split; [by apply reader_reads_to_json|split; [apply writer_appends|]].
  by apply encode_document.
Qed.

(** Witness of C23: the document of [test_reflect], read into a default
    [Entity] and written back. *)
Lemma read_write_roundtrip_witness :
  wf_ty Entity = true /\ conforms Entity entity_doc = true /\
  wt Entity (value_init Entity) = true /\ vecs_empty Entity (value_init Entity) = true /\
  exists v, reflect Entity (mkReader entity_doc [], value_init Entity) =
              (Ok tt, (mkReader entity_doc [], v)) /\
            reflect Entity (mkWriter [], v) = (Ok tt, (mkWriter (encode Entity v), v)) /\
            document_of_events (encode Entity v) = Some entity_doc.
Proof.
  do 4 (split; [reflexivity|]). apply read_write_roundtrip; reflexivity.
Defined.
